(** * conn.go: the blocking uTP connection adapter

    A shallow embedding of [Conn] (package utp): its fields, the upcalls the
    engine makes into it, and the blocking [Read]/[Write]/[Close]/deadline
    operations, as a state-and-panic monad over the connection and the world
    around it (engine, clock, condition variable, other goroutines). The
    two address queries, [LocalAddr] and [RemoteAddr], touch none of the
    connection's state and are left out. *)

From Stdlib Require Import ZArith List String Bool Lia.
From Stdlib Require Import Strings.Byte.
Import ListNotations.
Open Scope Z_scope.

(** ** Machine integers *)

(** Go's [int64]: two's complement wrap-around on overflow. *)
Definition wrap64 (z : Z) : Z := (z + 2 ^ 63) mod 2 ^ 64 - 2 ^ 63.

(** Go's [len] as an [int]. *)
Definition len {A : Type} (l : list A) : Z := Z.of_nat (List.length l).

(** ** Package [time], as far as conn.go uses it

    A [Time] is the number of nanoseconds elapsed since the zero instant
    (January 1, year 1, 00:00:00 UTC); a [Duration] is an [int64] count of
    nanoseconds. *)
Module time.

Definition Time := Z.
Definition Duration := Z.

Definition minDuration : Duration := - 2 ^ 63.
Definition maxDuration : Duration := 2 ^ 63 - 1.

Definition IsZero (t : Time) : bool := t =? 0.

Definition Before (t u : Time) : bool := t <? u.

(** [t.Sub(u)]: the difference, saturated to the range of a Duration. *)
Definition Sub (t u : Time) : Duration :=
  let d := t - u in
  if d <? minDuration then minDuration
  else if maxDuration <? d then maxDuration
  else d.

(** A one-shot [*time.Timer], by the last call made on it: stopped, or
    armed to fire [d] nanoseconds after the call of [Reset(d)]. *)
Inductive Timer : Type :=
| Stopped
| Armed (d : Duration).

End time.

(** ** Errors *)

(** The error values conn.go produces. [errors_New] compares here by
    message, the only thing a caller of this code can observe of it. *)
Inductive error : Type :=
| io_EOF
| errors_New (text : string)
| errDeadlineExceeded.

(** What a [panic] carries: the formatted message of [onLibError] (kept as
    its two arguments), the [int] of [writeNoWait], or a run-time error
    (an index or a slice bound out of range). *)
Inductive panic_value : Type :=
| panic_multiple_lib_errors (got : string) (have : error)
| panic_int (n : Z)
| panic_index (i : Z) (length : Z)
| panic_slice_bounds (low : Z) (high : Z).

(** ** The connection *)

(** The engine-side socket behind [*C.utp_socket]; [None] is [nil]. *)
Definition utp_socket := nat.

Record Conn : Type := mkConn {
  s : option utp_socket;
  readBuf : list byte;
  gotEOF : bool;
  gotConnect : bool;
  destroyed : bool;
  closed : bool;
  libError : option error;
  writeDeadline : time.Time;
  writeDeadlineTimer : time.Timer;
  readDeadline : time.Time;
  readDeadlineTimer : time.Timer;
  numBytesRead : Z;
  numBytesWritten : Z
}.

Definition set_s (v : option utp_socket) (c : Conn) : Conn :=
  mkConn v (readBuf c) (gotEOF c) (gotConnect c) (destroyed c) (closed c)
    (libError c) (writeDeadline c) (writeDeadlineTimer c) (readDeadline c)
    (readDeadlineTimer c) (numBytesRead c) (numBytesWritten c).

Definition set_readBuf (v : list byte) (c : Conn) : Conn :=
  mkConn (s c) v (gotEOF c) (gotConnect c) (destroyed c) (closed c)
    (libError c) (writeDeadline c) (writeDeadlineTimer c) (readDeadline c)
    (readDeadlineTimer c) (numBytesRead c) (numBytesWritten c).

Definition set_gotEOF (v : bool) (c : Conn) : Conn :=
  mkConn (s c) (readBuf c) v (gotConnect c) (destroyed c) (closed c)
    (libError c) (writeDeadline c) (writeDeadlineTimer c) (readDeadline c)
    (readDeadlineTimer c) (numBytesRead c) (numBytesWritten c).

Definition set_gotConnect (v : bool) (c : Conn) : Conn :=
  mkConn (s c) (readBuf c) (gotEOF c) v (destroyed c) (closed c)
    (libError c) (writeDeadline c) (writeDeadlineTimer c) (readDeadline c)
    (readDeadlineTimer c) (numBytesRead c) (numBytesWritten c).

Definition set_destroyed (v : bool) (c : Conn) : Conn :=
  mkConn (s c) (readBuf c) (gotEOF c) (gotConnect c) v (closed c)
    (libError c) (writeDeadline c) (writeDeadlineTimer c) (readDeadline c)
    (readDeadlineTimer c) (numBytesRead c) (numBytesWritten c).

Definition set_closed (v : bool) (c : Conn) : Conn :=
  mkConn (s c) (readBuf c) (gotEOF c) (gotConnect c) (destroyed c) v
    (libError c) (writeDeadline c) (writeDeadlineTimer c) (readDeadline c)
    (readDeadlineTimer c) (numBytesRead c) (numBytesWritten c).

Definition set_libError (v : option error) (c : Conn) : Conn :=
  mkConn (s c) (readBuf c) (gotEOF c) (gotConnect c) (destroyed c) (closed c)
    v (writeDeadline c) (writeDeadlineTimer c) (readDeadline c)
    (readDeadlineTimer c) (numBytesRead c) (numBytesWritten c).

Definition set_writeDeadline (v : time.Time) (c : Conn) : Conn :=
  mkConn (s c) (readBuf c) (gotEOF c) (gotConnect c) (destroyed c) (closed c)
    (libError c) v (writeDeadlineTimer c) (readDeadline c)
    (readDeadlineTimer c) (numBytesRead c) (numBytesWritten c).

Definition set_writeDeadlineTimer (v : time.Timer) (c : Conn) : Conn :=
  mkConn (s c) (readBuf c) (gotEOF c) (gotConnect c) (destroyed c) (closed c)
    (libError c) (writeDeadline c) v (readDeadline c)
    (readDeadlineTimer c) (numBytesRead c) (numBytesWritten c).

Definition set_readDeadline (v : time.Time) (c : Conn) : Conn :=
  mkConn (s c) (readBuf c) (gotEOF c) (gotConnect c) (destroyed c) (closed c)
    (libError c) (writeDeadline c) (writeDeadlineTimer c) v
    (readDeadlineTimer c) (numBytesRead c) (numBytesWritten c).

Definition set_readDeadlineTimer (v : time.Timer) (c : Conn) : Conn :=
  mkConn (s c) (readBuf c) (gotEOF c) (gotConnect c) (destroyed c) (closed c)
    (libError c) (writeDeadline c) (writeDeadlineTimer c) (readDeadline c)
    v (numBytesRead c) (numBytesWritten c).

Definition set_numBytesRead (v : Z) (c : Conn) : Conn :=
  mkConn (s c) (readBuf c) (gotEOF c) (gotConnect c) (destroyed c) (closed c)
    (libError c) (writeDeadline c) (writeDeadlineTimer c) (readDeadline c)
    (readDeadlineTimer c) v (numBytesWritten c).

Definition set_numBytesWritten (v : Z) (c : Conn) : Conn :=
  mkConn (s c) (readBuf c) (gotEOF c) (gotConnect c) (destroyed c) (closed c)
    (libError c) (writeDeadline c) (writeDeadlineTimer c) (readDeadline c)
    (readDeadlineTimer c) (numBytesRead c) v.

(** ** The world around a connection *)

(** Which of the two deadline timers an effect is about. *)
Inductive which_timer : Type := read_timer | write_timer.

(** What the adapter does to its collaborators: calls into the engine (with
    the handle they were given and, for [utp_write], the bytes offered and
    the count returned), calls on the timers, and [c.cond.Broadcast()]. *)
Inductive Effect : Type :=
| utp_close (h : option utp_socket)
| utp_read_drained (h : option utp_socket)
| utp_write (h : option utp_socket) (buf : list byte) (ret : Z)
| timer_Stop (w : which_timer)
| timer_Reset (w : which_timer) (d : time.Duration)
| broadcast.

(** What another goroutine does to the connection while a caller sits in
    [c.cond.Wait()]: the five upcalls of the engine, a fired deadline timer,
    and the non-blocking operations of other application threads. *)
Inductive Event : Type :=
| on_connected
| on_data (bs : list byte)
| on_eof
| on_error (codeName : string)
| on_destroyed
| timer_fired
| call_Close
| call_SetDeadline (t : time.Time)
| call_SetReadDeadline (t : time.Time)
| call_SetWriteDeadline (t : time.Time).

(** The world: the clock as the sequence of readings [time.Now()] returns,
    the engine's answers to [utp_write] (by call number and bytes offered),
    the effects so far (most recent first), and what happens during each
    future [cond.Wait()] of the caller (one batch of events per wait). *)
Record World : Type := mkWorld {
  clock : nat -> time.Time;
  ticks : nat;
  engine : nat -> list byte -> Z;
  nwrites : nat;
  trace : list Effect;
  pending : list (list Event)
}.

Record St : Type := mkSt { conn : Conn; world : World }.

(** ** The monad: state, panics, and a caller left waiting *)

Inductive Res (A : Type) : Type :=
| Ret (a : A) (st : St)
| Panic (v : panic_value) (st : St)
| Blocked (st : St)
| OutOfFuel (st : St).

Arguments Ret {A} a st.
Arguments Panic {A} v st.
Arguments Blocked {A} st.
Arguments OutOfFuel {A} st.

Definition M (A : Type) : Type := St -> Res A.

Definition ret {A : Type} (a : A) : M A := fun st => Ret a st.

Definition bind {A B : Type} (m : M A) (k : A -> M B) : M B :=
  fun st =>
    match m st with
    | Ret a st' => k a st'
    | Panic v st' => Panic v st'
    | Blocked st' => Blocked st'
    | OutOfFuel st' => OutOfFuel st'
    end.

Declare Scope conn_scope.
Delimit Scope conn_scope with conn.
Notation "x <- m ;; k" := (bind m (fun x => k))
  (at level 61, m at next level, right associativity) : conn_scope.
Notation "m ;; k" := (bind m (fun _ => k))
  (at level 61, right associativity) : conn_scope.
Open Scope conn_scope.

Definition panic {A : Type} (v : panic_value) : M A := fun st => Panic v st.

Definition get : M Conn := fun st => Ret (conn st) st.

Definition modify (f : Conn -> Conn) : M unit :=
  fun st => Ret tt (mkSt (f (conn st)) (world st)).

Definition emit (e : Effect) : M unit :=
  fun st =>
    let w := world st in
    Ret tt (mkSt (conn st)
              (mkWorld (clock w) (ticks w) (engine w) (nwrites w)
                 (e :: trace w) (pending w))).

(** [time.Now()]: the next reading of the clock. *)
Definition time_Now : M time.Time :=
  fun st =>
    let w := world st in
    Ret (clock w (ticks w))
      (mkSt (conn st)
         (mkWorld (clock w) (S (ticks w)) (engine w) (nwrites w)
            (trace w) (pending w))).

(** [C.utp_write(h, &b[0], len(b))]: the engine's answer, recorded. *)
Definition C_utp_write (h : option utp_socket) (b : list byte) : M Z :=
  fun st =>
    let w := world st in
    let r := engine w (nwrites w) b in
    Ret r
      (mkSt (conn st)
         (mkWorld (clock w) (ticks w) (engine w) (S (nwrites w))
            (utp_write h b r :: trace w) (pending w))).

Definition C_utp_close (h : option utp_socket) : M unit := emit (utp_close h).

Definition C_utp_read_drained (h : option utp_socket) : M unit :=
  emit (utp_read_drained h).

Definition cond_Broadcast : M unit := emit broadcast.

Definition Timer_Stop (w : which_timer) : M unit :=
  modify (match w with
          | read_timer => set_readDeadlineTimer time.Stopped
          | write_timer => set_writeDeadlineTimer time.Stopped
          end) ;;
  emit (timer_Stop w).

Definition Timer_Reset (w : which_timer) (d : time.Duration) : M unit :=
  modify (match w with
          | read_timer => set_readDeadlineTimer (time.Armed d)
          | write_timer => set_writeDeadlineTimer (time.Armed d)
          end) ;;
  emit (timer_Reset w d).

(** ** Slices *)

(** [copy(dst, src)]: the first [min(len(dst), len(src))] elements of [src]
    overwrite those of [dst]; the result is [dst] afterwards and the count. *)
Definition copy (dst src : list byte) : list byte * Z :=
  let n := Nat.min (List.length dst) (List.length src) in
  (firstn n src ++ skipn n dst, Z.of_nat n).

(** [b[n:]], with the run-time check of the bound. *)
Definition slice_from (b : list byte) (n : Z) : M (list byte) :=
  if (n <? 0) || (len b <? n) then panic (panic_slice_bounds n (len b))
  else ret (skipn (Z.to_nat n) b).

(** ** Upcalls and non-blocking operations *)

Definition onLibError (codeName : string) : M unit :=
  c <- get ;;
  match libError c with
  | Some have => panic (panic_multiple_lib_errors codeName have)
  | None =>
      modify (set_libError (Some (errors_New codeName))) ;;
      cond_Broadcast
  end.

Definition setConnected : M unit :=
  modify (set_gotConnect true) ;;
  cond_Broadcast.

Definition close : M unit :=
  c <- get ;;
  if closed c then ret tt
  else
    (if negb (destroyed c)
     then C_utp_close (s c) ;; modify (set_s None)
     else ret tt) ;;
    modify (set_closed true) ;;
    cond_Broadcast.

Definition Close : M (option error) :=
  close ;;
  ret None.

Definition SetDeadline (t : time.Time) : M (option error) :=
  modify (set_readDeadline t) ;;
  modify (set_writeDeadline t) ;;
  (if time.IsZero t
   then Timer_Stop read_timer ;; Timer_Stop write_timer
   else
     now <- time_Now ;;
     let d := time.Sub t now in
     Timer_Reset read_timer d ;; Timer_Reset write_timer d) ;;
  cond_Broadcast ;;
  ret None.

Definition SetReadDeadline (t : time.Time) : M (option error) :=
  modify (set_readDeadline t) ;;
  (if time.IsZero t
   then Timer_Stop read_timer
   else
     now <- time_Now ;;
     let d := time.Sub t now in
     Timer_Reset read_timer d) ;;
  cond_Broadcast ;;
  ret None.

Definition SetWriteDeadline (t : time.Time) : M (option error) :=
  modify (set_writeDeadline t) ;;
  (if time.IsZero t
   then Timer_Stop write_timer
   else
     now <- time_Now ;;
     let d := time.Sub t now in
     Timer_Reset write_timer d) ;;
  cond_Broadcast ;;
  ret None.

Definition setGotEOF : M unit :=
  modify (set_gotEOF true) ;;
  cond_Broadcast.

Definition onDestroyed : M unit :=
  modify (set_destroyed true) ;;
  modify (set_s None) ;;
  cond_Broadcast.

(** Modelled from the spec: the data-arrival upcall, which lives in the
    engine's delivery path and not in conn.go. It appends the delivered
    bytes to the inbound buffer and, like every upcall, broadcasts. *)
Definition onData (bs : list byte) : M unit :=
  modify (fun c => set_readBuf (readBuf c ++ bs) c) ;;
  cond_Broadcast.

(** ** Waiting on the condition variable *)

Definition run_event (e : Event) : M unit :=
  match e with
  | on_connected => setConnected
  | on_data bs => onData bs
  | on_eof => setGotEOF
  | on_error codeName => onLibError codeName
  | on_destroyed => onDestroyed
  | timer_fired => cond_Broadcast
  | call_Close => Close ;; ret tt
  | call_SetDeadline t => SetDeadline t ;; ret tt
  | call_SetReadDeadline t => SetReadDeadline t ;; ret tt
  | call_SetWriteDeadline t => SetWriteDeadline t ;; ret tt
  end.

Fixpoint run_events (es : list Event) : M unit :=
  match es with
  | [] => ret tt
  | e :: es' => run_event e ;; run_events es'
  end.

(** How many times [c.cond.Broadcast()] was called. *)
Fixpoint count_broadcast (tr : list Effect) : nat :=
  match tr with
  | [] => O
  | broadcast :: tr' => S (count_broadcast tr')
  | _ :: tr' => count_broadcast tr'
  end.

(** Whether the condition variable was broadcast on between [st] and
    [st']. *)
Definition broadcast_since (st st' : St) : bool :=
  (count_broadcast (trace (world st))
   <? count_broadcast (trace (world st')))%nat.

(** The world with its next batch of events taken off. *)
Definition pop_pending (rest : list (list Event)) (st : St) : St :=
  let w := world st in
  mkSt (conn st)
    (mkWorld (clock w) (ticks w) (engine w) (nwrites w) (trace w) rest).

(** A caller asleep in [c.cond.Wait()] while the other goroutines run the
    batches of events the world holds, one batch at a time. The caller
    resumes after the first batch during which somebody called
    [c.cond.Broadcast()]; a batch without a broadcast leaves it asleep,
    whatever that batch did to the connection. *)
Fixpoint wait_for_broadcast (batches : list (list Event)) : M unit :=
  fun st =>
    match batches with
    | [] => Blocked st
    | batch :: rest =>
        let st0 := pop_pending rest st in
        match run_events batch st0 with
        | Ret _ st1 =>
            if broadcast_since st0 st1 then Ret tt st1
            else wait_for_broadcast rest st1
        | Panic v st1 => Panic v st1
        | Blocked st1 => Blocked st1
        | OutOfFuel st1 => OutOfFuel st1
        end
    end.

(** [c.cond.Wait()]: the lock is released and the caller sleeps until a
    broadcast. With no batch left nobody ever wakes the caller. *)
Definition cond_Wait : M unit :=
  fun st => wait_for_broadcast (pending (world st)) st.

(** [err != nil]. *)
Definition notnil (err : option error) : bool :=
  match err with
  | Some _ => true
  | None => false
  end.

Definition out_of_fuel {A : Type} : M A := fun st => OutOfFuel st.

(** The number of waits the world still has events for. *)
Definition waits (st : St) : nat := List.length (pending (world st)).

(** ** Blocking operations *)

Fixpoint waitForConnect_loop (fuel : nat) : M (option error) :=
  match fuel with
  | O => out_of_fuel
  | S fuel' =>
      c <- get ;;
      match libError c with
      | Some e => ret (Some e)
      | None =>
          if gotConnect c then ret None
          else cond_Wait ;; waitForConnect_loop fuel'
      end
  end.

Definition waitForConnect : M (option error) :=
  fun st => waitForConnect_loop (S (waits st)) st.

(** The error switch of [readNoWait]. The clock is read only when the
    fifth case is reached with a deadline set. *)
Definition readErr : M (option error) :=
  c <- get ;;
  if gotEOF c then ret (Some io_EOF)
  else
    match libError c with
    | Some e => ret (Some e)
    | None =>
        if destroyed c then ret (Some (errors_New "destroyed"))
        else if closed c then ret (Some (errors_New "closed"))
        else if negb (time.IsZero (readDeadline c)) then
          now <- time_Now ;;
          if negb (time.Before now (readDeadline c))
          then ret (Some errDeadlineExceeded)
          else ret None
        else ret None
    end.

(** [readNoWait(b)]: the caller's buffer afterwards, [n] and [err].
    [c.readBuf[n:]] cannot fail, [n] being what [copy] returned. *)
Definition readNoWait (b : list byte) : M (list byte * Z * option error) :=
  c <- get ;;
  let '(b', n) := copy b (readBuf c) in
  modify (set_readBuf (skipn (Z.to_nat n) (readBuf c))) ;;
  c <- get ;;
  (if negb (n =? 0) && (len (readBuf c) =? 0)
   then C_utp_read_drained (s c)
   else ret tt) ;;
  err <- readErr ;;
  ret (b', n, err).

Fixpoint Read_loop (fuel : nat) (b : list byte)
  : M (list byte * Z * option error) :=
  match fuel with
  | O => out_of_fuel
  | S fuel' =>
      r <- readNoWait b ;;
      let '(b', n, err) := r in
      modify (fun c => set_numBytesRead (wrap64 (numBytesRead c + n)) c) ;;
      if negb (n =? 0) || (len b =? 0) || notnil err
      then ret (b', n, err)
      else cond_Wait ;; Read_loop fuel' b'
  end.

(** [Read(b)]: the buffer as the call leaves it, and [(n, err)]. *)
Definition Read (b : list byte) : M (list byte * Z * option error) :=
  fun st => Read_loop (S (waits st)) b st.

(** The error switch of [writeNoWait]. *)
Definition writeErr : M (option error) :=
  c <- get ;;
  match libError c with
  | Some e => ret (Some e)
  | None =>
      if closed c then ret (Some (errors_New "closed"))
      else if destroyed c then ret (Some (errors_New "destroyed"))
      else if negb (time.IsZero (writeDeadline c)) then
        now <- time_Now ;;
        if negb (time.Before now (writeDeadline c))
        then ret (Some errDeadlineExceeded)
        else ret None
      else ret None
  end.

Definition writeNoWait (b : list byte) : M (Z * option error) :=
  err <- writeErr ;;
  match err with
  | Some _ => ret (0, err)
  | None =>
      match b with
      | [] => panic (panic_index 0 0)
      | _ :: _ =>
          c <- get ;;
          n <- C_utp_write (s c) b ;;
          if n <? 0 then panic (panic_int n) else ret (n, None)
      end
  end.

Fixpoint Write_loop (fuel : nat) (b : list byte) (n : Z)
  : M (Z * option error) :=
  match fuel with
  | O => out_of_fuel
  | S fuel' =>
      if len b =? 0 then ret (n, None)
      else
        r <- writeNoWait b ;;
        let '(n1, err) := r in
        b' <- slice_from b n1 ;;
        let n' := n + n1 in
        match err with
        | Some _ => ret (n', err)
        | None =>
            if negb (n1 =? 0) then Write_loop fuel' b' n'
            else cond_Wait ;; Write_loop fuel' b' n'
        end
  end.

Definition Write (b : list byte) : M (Z * option error) :=
  fun st =>
    (r <- Write_loop (S (List.length b + waits st)) b 0 ;;
     let '(n, err) := r in
     modify (fun c => set_numBytesWritten (wrap64 (numBytesWritten c + n)) c) ;;
     ret (n, err)) st.

(** ** Running whole operations *)

(** Everything that can happen to a connection: the three blocking calls
    of an application thread, and the events (upcalls, timer, non-blocking
    calls). Results are dropped; only the state matters here. *)
Inductive Op : Type :=
| op_Read (b : list byte)
| op_Write (b : list byte)
| op_waitForConnect
| op_event (e : Event).

Definition run_op (o : Op) : M unit :=
  match o with
  | op_Read b => Read b ;; ret tt
  | op_Write b => Write b ;; ret tt
  | op_waitForConnect => waitForConnect ;; ret tt
  | op_event e => run_event e
  end.

Fixpoint run_ops (os : list Op) : M unit :=
  match os with
  | [] => ret tt
  | o :: os' => run_op o ;; run_ops os'
  end.

(** The state an outcome leaves behind, whatever the outcome. *)
Definition final {A : Type} (r : Res A) : St :=
  match r with
  | Ret _ st => st
  | Panic _ st => st
  | Blocked st => st
  | OutOfFuel st => st
  end.

(** [Close()] called [k] times in a row. *)
Fixpoint Close_times (k : nat) : M (option error) :=
  match k with
  | O => ret None
  | S k' => Close ;; Close_times k'
  end.

(** How many times the engine's close primitive was called. *)
Fixpoint count_utp_close (tr : list Effect) : nat :=
  match tr with
  | [] => O
  | utp_close _ :: tr' => S (count_utp_close tr')
  | _ :: tr' => count_utp_close tr'
  end.

(** The answers of [utp_write] in a trace, summed. *)
Fixpoint sum_accepted (tr : list Effect) : Z :=
  match tr with
  | [] => 0
  | utp_write _ _ r :: tr' => r + sum_accepted tr'
  | _ :: tr' => sum_accepted tr'
  end.

(** The bytes the engine took, in the order it took them; the trace holds
    the most recent effect first. *)
Fixpoint bytes_accepted (tr : list Effect) : list byte :=
  match tr with
  | [] => []
  | utp_write _ buf r :: tr' => bytes_accepted tr' ++ firstn (Z.to_nat r) buf
  | _ :: tr' => bytes_accepted tr'
  end.

(** The error switch of [writeNoWait] as a function of the connection and
    of the clock reading it would take. *)
Definition write_terminal (c : Conn) (now : time.Time) : option error :=
  match libError c with
  | Some e => Some e
  | None =>
      if closed c then Some (errors_New "closed")
      else if destroyed c then Some (errors_New "destroyed")
      else if negb (time.IsZero (writeDeadline c))
              && negb (time.Before now (writeDeadline c))
      then Some errDeadlineExceeded
      else None
  end.

(** The flags and the latched error of [c'] carry on those of [c]. *)
Record stable (c c' : Conn) : Prop := mkStable {
  stable_closed : closed c = true -> closed c' = true;
  stable_gotEOF : gotEOF c = true -> gotEOF c' = true;
  stable_destroyed : destroyed c = true -> destroyed c' = true;
  stable_libError : forall e, libError c = Some e -> libError c' = Some e
}.

(** ** Relations and postconditions used in the proofs *)

(** [m] takes every state to an [R]-related one, whatever its outcome. *)
Definition preserves (R : St -> St -> Prop) {A : Type} (m : M A) : Prop :=
  forall st, R st (final (m st)).

Definition Rstable (st st' : St) : Prop := stable (conn st) (conn st').

(** What an event does to the inbound buffer. *)
Definition event_data (e : Event) : list byte :=
  match e with
  | on_data bs => bs
  | _ => []
  end.

(** The bytes a run of events delivers, in order. *)
Definition data_of (es : list Event) : list byte :=
  List.concat (map event_data es).

(** Between [st] and [st'] the batches [consumed] were taken off the world
    and run to their end, and the inbound buffer of [st'] is that of [st]
    with exactly the bytes their data arrivals delivered added at its
    end: nothing else was added and nothing was consumed. *)
Definition Rarrived (st st' : St) : Prop :=
  exists consumed,
    pending (world st) = consumed ++ pending (world st')
    /\ readBuf (conn st')
       = readBuf (conn st) ++ data_of (List.concat consumed).

(** The same up to a panic: of the events taken off the world, [ran] were
    run and [skipped] were not, the first of these being the second error
    upcall that panicked. *)
Definition Rarrived_panic (st st' : St) : Prop :=
  exists ran skipped,
    List.concat (pending (world st))
    = ran ++ skipped ++ List.concat (pending (world st'))
    /\ readBuf (conn st') = readBuf (conn st) ++ data_of ran
    /\ (skipped = []
        \/ exists codeName tl, skipped = on_error codeName :: tl).

(** What an operation that does not read does to the inbound buffer, by
    outcome. *)
Definition arrived_post {A : Type} (st : St) (r : Res A) : Prop :=
  match r with
  | Ret _ st' => Rarrived st st'
  | Blocked st' => Rarrived st st'
  | Panic _ st' => Rarrived_panic st st'
  | OutOfFuel _ => False
  end.

(** What [Read] does to the inbound buffer, by outcome: when it returns,
    it hands over the front, as much as fits, of the buffer as the data
    arrivals of the consumed batches left it, and keeps the rest. *)
Definition Read_post (b : list byte) (st : St)
  (r : Res (list byte * Z * option error)) : Prop :=
  match r with
  | Ret (b', n, err) st' =>
      exists consumed,
        pending (world st) = consumed ++ pending (world st')
        /\ let buf := readBuf (conn st) ++ data_of (List.concat consumed) in
           let k := Nat.min (List.length b) (List.length buf) in
           n = Z.of_nat k
           /\ b' = firstn k buf ++ skipn k b
           /\ readBuf (conn st') = skipn k buf
  | Blocked st' => Rarrived st st'
  | Panic _ st' => Rarrived_panic st st'
  | OutOfFuel _ => False
  end.

(** Only [cond_Wait] takes events off the world. *)
Definition Rpending (st st' : St) : Prop :=
  pending (world st') = pending (world st).

(** An outcome other than running out of fuel. *)
Definition fueled {A : Type} (r : Res A) : Prop :=
  match r with
  | OutOfFuel _ => False
  | _ => True
  end.

(** An answer of the engine that [Write] can go on from. *)
Definition step_ok (e : Effect) : Prop :=
  match e with
  | utp_write _ buf r => 0 <= r <= len buf
  | _ => True
  end.

Definition no_write (e : Effect) : Prop :=
  match e with
  | utp_write _ _ _ => False
  | _ => True
  end.

(** The trace of [st'] extends that of [st] without a call of [utp_write]. *)
Definition Rquiet (st st' : St) : Prop :=
  exists new,
    trace (world st') = new ++ trace (world st) /\ Forall no_write new.

(** What a run of the write loop leaves in the trace, by outcome. [new] is
    what the run added; [n] is the count the loop started from. *)
Definition Write_post (b : list byte) (n : Z) (st : St)
  (r : Res (Z * option error)) : Prop :=
  exists new,
    trace (world (final r)) = new ++ trace (world st)
    /\ match r with
       | Ret (n', err) st' =>
           Forall step_ok new
           /\ n' = n + sum_accepted new
           /\ bytes_accepted new = firstn (Z.to_nat (n' - n)) b
           /\ 0 <= n' - n <= len b
           /\ match err with
              | None => n' - n = len b
              | Some e =>
                  n' - n < len b
                  /\ exists now, write_terminal (conn st') now = Some e
              end
       | Panic v st' =>
           Forall step_ok new
           \/ exists h buf r new',
               new = utp_write h buf r :: new'
               /\ Forall step_ok new'
               /\ ((r < 0 /\ v = panic_int r)
                   \/ (len buf < r /\ v = panic_slice_bounds r (len buf)))
       | Blocked _ => Forall step_ok new
       | OutOfFuel _ => True
       end.

(** Whether [Close] would still call the engine. *)
Definition close_due (c : Conn) : nat :=
  if closed c || destroyed c then 0%nat else 1%nat.

(** From [st] to [st'] the engine was asked to close only if that was still
    due, and no more than once. *)
Definition Rclose (st st' : St) : Prop :=
  (count_utp_close (trace (world st))
   <= count_utp_close (trace (world st')))%nat
  /\ (count_utp_close (trace (world st')) + close_due (conn st')
      <= count_utp_close (trace (world st)) + close_due (conn st))%nat.

(** ** Scenarios *)

(** A connection as the constructor leaves it: a live engine handle,
    nothing buffered, no flag set, no deadline. *)
Definition fresh : Conn :=
  mkConn (Some 1%nat) [] false false false false None
    0 time.Stopped 0 time.Stopped 0 0.

(** A world where the clock stands at 1, the engine accepts nothing and no
    other goroutine does anything. *)
Definition still : World := mkWorld (fun _ => 1) O (fun _ _ => 0) O [] [].

Definition start : St := mkSt fresh still.

(** A connection that was closed locally and then destroyed by the engine,
    with no error latched. *)
Definition closed_and_destroyed : St :=
  mkSt (set_destroyed true (set_closed true (set_s None fresh))) still.

(** The engine takes two bytes, then nothing; while the writer waits, the
    engine reports ECONNRESET. *)
Definition reset_while_writing : St :=
  mkSt (set_gotConnect true fresh)
    (mkWorld (fun _ => 1) O
       (fun k _ => match k with O => 2 | _ => 0 end) O []
       [[on_error "ECONNRESET"]]).

(** The engine answers the first [utp_write] with -1. *)
Definition engine_fails : St :=
  mkSt (set_gotConnect true fresh)
    (mkWorld (fun _ => 1) O (fun _ _ => -1) O [] []).

(** A world whose clock stands in the year 2026 (nanoseconds since the zero
    instant), on a fresh connection. *)
Definition in_2026 : St :=
  mkSt fresh
    (mkWorld (fun _ => 63900000000000000000) O (fun _ _ => 0) O [] []).

(** A connection with a latched engine error. *)
Definition errored : St :=
  mkSt (set_libError (Some (errors_New "ECONNRESET")) fresh) still.

(** ** Further vocabulary: the read side, the handle, the counters *)

(** The error switch of [readNoWait] as a function of the connection and
    of the clock reading it would take. *)
Definition read_terminal (c : Conn) (now : time.Time) : option error :=
  if gotEOF c then Some io_EOF
  else
    match libError c with
    | Some e => Some e
    | None =>
        if destroyed c then Some (errors_New "destroyed")
        else if closed c then Some (errors_New "closed")
        else if negb (time.IsZero (readDeadline c))
                && negb (time.Before now (readDeadline c))
        then Some errDeadlineExceeded
        else None
    end.

(** Whether the switch of [readNoWait] gets as far as [time.Now()]. *)
Definition read_reads_clock (c : Conn) : bool :=
  negb (gotEOF c)
  && match libError c with Some _ => false | None => true end
  && negb (destroyed c) && negb (closed c)
  && negb (time.IsZero (readDeadline c)).

(** The state one call of [readNoWait(b)] leaves: the copied bytes are off
    the inbound buffer, the engine was told if that emptied it, and the
    clock was read if the switch got that far. *)
Definition after_readNoWait (b : list byte) (st : St) : St :=
  let c := conn st in
  let w := world st in
  let k := Nat.min (List.length b) (List.length (readBuf c)) in
  mkSt (set_readBuf (skipn k (readBuf c)) c)
    (mkWorld (clock w)
       (if read_reads_clock c then S (ticks w) else ticks w)
       (engine w) (nwrites w)
       (if negb (Z.of_nat k =? 0) && (len (skipn k (readBuf c)) =? 0)
        then utp_read_drained (s c) :: trace w
        else trace w)
       (pending w)).

(** [c.numBytesRead += int64(n)]. *)
Definition count_read (n : Z) (st : St) : St :=
  mkSt (set_numBytesRead (wrap64 (numBytesRead (conn st) + n)) (conn st))
    (world st).

(** A value an [int64] can hold. *)
Definition in_int64 (z : Z) : Prop := - 2 ^ 63 <= z < 2 ^ 63.

(** The handle is [nil] exactly when the connection is closed or
    destroyed. *)
Definition handle_consistent (c : Conn) : Prop :=
  s c = None <-> closed c || destroyed c = true.

(** A call into the engine that needs a live socket and got one. *)
Definition handle_ok (e : Effect) : Prop :=
  match e with
  | utp_close None => False
  | utp_write None _ _ => False
  | _ => True
  end.

(** From a consistent [st], [st'] is consistent again, holds the same
    handle or none, and what was added to the trace in between gave the
    engine's write and close primitives a live handle. *)
Definition Rhandle (st st' : St) : Prop :=
  handle_consistent (conn st) ->
  handle_consistent (conn st')
  /\ (s (conn st') = s (conn st) \/ s (conn st') = None)
  /\ exists new,
      trace (world st') = new ++ trace (world st) /\ Forall handle_ok new.

(** The byte counters of [st'] are those of [st]. *)
Definition Rcount (st st' : St) : Prop :=
  numBytesRead (conn st') = numBytesRead (conn st)
  /\ numBytesWritten (conn st') = numBytesWritten (conn st).

(** A connection on which a [Read] has nothing to return: no byte
    buffered, no terminal condition, no read deadline. *)
Definition idle (c : Conn) : Prop :=
  readBuf c = [] /\ gotEOF c = false /\ libError c = None
  /\ destroyed c = false /\ closed c = false /\ readDeadline c = 0.

(** A connection on which a [Write] meets no terminal condition and no
    write deadline. *)
Definition writable (c : Conn) : Prop :=
  libError c = None /\ closed c = false /\ destroyed c = false
  /\ writeDeadline c = 0.

(** Some terminal condition of the read side holds. *)
Definition read_over (c : Conn) : Prop :=
  gotEOF c = true \/ libError c <> None \/ destroyed c = true
  \/ closed c = true.

(** Some terminal condition of the write side holds. *)
Definition write_over (c : Conn) : Prop :=
  libError c <> None \/ closed c = true \/ destroyed c = true.

(** Whether the switch of [writeNoWait] gets as far as [time.Now()]. *)
Definition write_reads_clock (c : Conn) : bool :=
  match libError c with Some _ => false | None => true end
  && negb (closed c) && negb (destroyed c)
  && negb (time.IsZero (writeDeadline c)).

(** The state the switch of [writeNoWait] leaves: the clock was read if
    the switch got that far. *)
Definition after_writeErr (st : St) : St :=
  let w := world st in
  if write_reads_clock (conn st)
  then mkSt (conn st)
         (mkWorld (clock w) (S (ticks w)) (engine w) (nwrites w)
            (trace w) (pending w))
  else st.

(** The state [writeNoWait(b)] leaves once it has called the engine. *)
Definition after_utp_write (b : list byte) (st : St) : St :=
  let c := conn st in
  let w := world (after_writeErr st) in
  mkSt c
    (mkWorld (clock w) (ticks w) (engine w) (S (nwrites w))
       (utp_write (s c) b (engine w (nwrites w) b) :: trace w) (pending w)).

(** [c.numBytesWritten += int64(n)]. *)
Definition count_written (n : Z) (st : St) : St :=
  mkSt (set_numBytesWritten (wrap64 (numBytesWritten (conn st) + n)) (conn st))
    (world st).

(** ** Reasoning about the monad *)

Lemma bind_Ret {A B : Type} (m : M A) (k : A -> M B) st b st'' :
  bind m k st = Ret b st'' ->
  exists a st', m st = Ret a st' /\ k a st' = Ret b st''.
Proof.
  unfold bind. destruct (m st) as [a st'| | |]; try discriminate.
  intros H. exists a, st'. split; [reflexivity | exact H].
Qed.

Section Preservation.

Variable R : St -> St -> Prop.
Hypothesis R_refl : forall st, R st st.
Hypothesis R_trans : forall st1 st2 st3, R st1 st2 -> R st2 st3 -> R st1 st3.

Lemma preserves_ret {A : Type} (a : A) : preserves R (ret a).
Proof. intros st. apply R_refl. Qed.

Lemma preserves_panic {A : Type} v : preserves R (@panic A v).
Proof. intros st. apply R_refl. Qed.

Lemma preserves_out_of_fuel {A : Type} : preserves R (@out_of_fuel A).
Proof. intros st. apply R_refl. Qed.

Lemma preserves_get : preserves R get.
Proof. intros st. apply R_refl. Qed.

Lemma preserves_bind {A B : Type} (m : M A) (k : A -> M B) :
  preserves R m -> (forall a, preserves R (k a)) -> preserves R (bind m k).
Proof.
  intros Hm Hk st. unfold bind. specialize (Hm st).
  destruct (m st) as [a st'|v st'|st'|st']; cbn in *; try exact Hm.
  eapply R_trans; [exact Hm | apply Hk].
Qed.

Lemma preserves_if {A : Type} (c : bool) (m1 m2 : M A) :
  preserves R m1 -> preserves R m2 -> preserves R (if c then m1 else m2).
Proof. destruct c; auto. Qed.

(** The rest of the section lifts [R] from the pieces between two waits
    to the blocking loops. Popping a batch of events is one such piece. *)
Hypothesis R_pop : forall c w rest,
    R (mkSt c w)
      (mkSt c (mkWorld (clock w) (ticks w) (engine w) (nwrites w)
                 (trace w) rest)).
Hypothesis R_event : forall e, preserves R (run_event e).

Lemma preserves_run_events es : preserves R (run_events es).
Proof.
  induction es as [|e es IH]; cbn [run_events].
  - apply preserves_ret.
  - apply preserves_bind; [apply R_event | intros _; exact IH].
Qed.

Lemma preserves_wait_for_broadcast batches :
  preserves R (wait_for_broadcast batches).
Proof.
  induction batches as [|batch rest IH]; intros st;
    cbn [wait_for_broadcast].
  - apply R_refl.
  - assert (H0 : R st (pop_pending rest st))
      by (destruct st as [c w]; apply R_pop).
    pose proof (preserves_run_events batch (pop_pending rest st)) as H1.
    destruct (run_events batch (pop_pending rest st))
      as [[] st1|v st1|st1|st1]; cbn [final] in *;
      try (eapply R_trans; eassumption).
    destruct (broadcast_since _ st1); cbn [final].
    + eapply R_trans; eassumption.
    + eapply R_trans; [eapply R_trans; eassumption | apply IH].
Qed.

Lemma preserves_cond_Wait : preserves R cond_Wait.
Proof. intros st. apply preserves_wait_for_broadcast. Qed.

Lemma preserves_waitForConnect_loop fuel :
  preserves R (waitForConnect_loop fuel).
Proof.
  induction fuel as [|fuel IH]; cbn [waitForConnect_loop].
  - apply preserves_out_of_fuel.
  - apply preserves_bind; [apply preserves_get | intros c].
    destruct (libError c); [apply preserves_ret|].
    destruct (gotConnect c); [apply preserves_ret|].
    apply preserves_bind; [apply preserves_cond_Wait | intros _; exact IH].
Qed.

Lemma preserves_waitForConnect : preserves R waitForConnect.
Proof.
  intros st. exact (preserves_waitForConnect_loop (S (waits st)) st).
Qed.

Section Reading.

Hypothesis R_readNoWait : forall b, preserves R (readNoWait b).
Hypothesis R_numBytesRead : forall n,
  preserves R
    (modify (fun c => set_numBytesRead (wrap64 (numBytesRead c + n)) c)).

Lemma preserves_Read_loop fuel : forall b, preserves R (Read_loop fuel b).
Proof.
induction fuel as [|fuel IH]; intros b; cbn [Read_loop].
- apply preserves_out_of_fuel.
- apply preserves_bind; [apply R_readNoWait | intros [[b' n] err]].
  apply preserves_bind; [apply R_numBytesRead | intros _].
  apply preserves_if; [apply preserves_ret|].
  apply preserves_bind; [apply preserves_cond_Wait | intros _; apply IH].
Qed.

Lemma preserves_Read b : preserves R (Read b).
Proof.
intros st. exact (preserves_Read_loop (S (waits st)) b st).
Qed.

End Reading.

Section Writing.

Hypothesis R_writeNoWait : forall b, preserves R (writeNoWait b).
Hypothesis R_numBytesWritten : forall n,
  preserves R
    (modify
       (fun c => set_numBytesWritten (wrap64 (numBytesWritten c + n)) c)).

Lemma preserves_slice_from b n : preserves R (slice_from b n).
Proof.
unfold slice_from. apply preserves_if;
  [apply preserves_panic | apply preserves_ret].
Qed.

Lemma preserves_Write_loop fuel :
forall b n, preserves R (Write_loop fuel b n).
Proof.
induction fuel as [|fuel IH]; intros b n; cbn [Write_loop].
- apply preserves_out_of_fuel.
- apply preserves_if; [apply preserves_ret|].
  apply preserves_bind; [apply R_writeNoWait | intros [n1 err]].
  apply preserves_bind; [apply preserves_slice_from | intros b'].
  destruct err; [apply preserves_ret|].
  apply preserves_if; [apply IH|].
  apply preserves_bind; [apply preserves_cond_Wait | intros _; apply IH].
Qed.

Lemma preserves_Write b : preserves R (Write b).
Proof.
intros st. unfold Write.
apply (preserves_bind (Write_loop (S (List.length b + waits st)) b 0)); [apply preserves_Write_loop | intros [n err]].
apply preserves_bind; [apply R_numBytesWritten | intros _].
apply preserves_ret.
Qed.

Hypothesis R_readNoWait : forall b, preserves R (readNoWait b).
Hypothesis R_numBytesRead : forall n,
  preserves R
    (modify (fun c => set_numBytesRead (wrap64 (numBytesRead c + n)) c)).

Lemma preserves_run_op o : preserves R (run_op o).
Proof.
destruct o as [b|b| |e]; cbn [run_op].
- apply preserves_bind; [|intros; apply preserves_ret].
  apply preserves_Read; assumption.
- apply preserves_bind; [|intros; apply preserves_ret].
  apply preserves_Write.
- apply preserves_bind; [|intros; apply preserves_ret].
  apply preserves_waitForConnect.
- apply R_event.
Qed.

Lemma preserves_run_ops os : preserves R (run_ops os).
Proof.
induction os as [|o os IH]; cbn [run_ops].
- apply preserves_ret.
- apply preserves_bind; [apply preserves_run_op | intros _; exact IH].
Qed.

End Writing.

End Preservation.

(** ** Straight-line code: evaluation by cases *)

Ltac unfold_straight :=
  unfold preserves, run_event, Close, close, SetDeadline, SetReadDeadline,
    SetWriteDeadline, setGotEOF, onDestroyed, onData, onLibError,
    setConnected, readNoWait, readErr, writeNoWait, writeErr, slice_from,
    Timer_Stop, Timer_Reset, C_utp_close, C_utp_read_drained, C_utp_write,
    cond_Broadcast, time_Now, emit, modify, get, panic, ret, bind, copy.

Ltac split_cases :=
  repeat match goal with
    | |- context [match ?x with _ => _ end] =>
        lazymatch x with
        | context [match _ with _ => _ end] => fail
        | _ => destruct x eqn:?; cbn
        end
    end.

Ltac straight := unfold_straight; cbn; split_cases.

(** ** The flags and the latched error only ever move forward *)

Lemma stable_refl c : stable c c.
Proof. constructor; auto. Qed.

Lemma stable_trans c1 c2 c3 : stable c1 c2 -> stable c2 c3 -> stable c1 c3.
Proof. intros [] []. constructor; auto. Qed.

Lemma Rstable_refl st : Rstable st st.
Proof. apply stable_refl. Qed.

Lemma Rstable_trans st1 st2 st3 :
  Rstable st1 st2 -> Rstable st2 st3 -> Rstable st1 st3.
Proof. apply stable_trans. Qed.

Lemma Rstable_event e : preserves Rstable (run_event e).
Proof.
  intros [c w]. destruct e; straight;
    constructor; cbn; intros; congruence.
Qed.

Lemma Rstable_readNoWait b : preserves Rstable (readNoWait b).
Proof.
  intros [c w]. straight; constructor; cbn; intros; congruence.
Qed.

Lemma Rstable_writeNoWait b : preserves Rstable (writeNoWait b).
Proof.
  intros [c w]. straight; constructor; cbn; intros; congruence.
Qed.

Lemma Rstable_run_op o : preserves Rstable (run_op o).
Proof.
  apply preserves_run_op;
    try (intros; intros [c w]; straight; constructor; cbn; intros; congruence).
  - exact Rstable_refl.
  - exact Rstable_trans.
  - intros. apply stable_refl.
Qed.

Lemma Rstable_run_ops os : preserves Rstable (run_ops os).
Proof.
  induction os as [|o os IH]; cbn [run_ops].
  - intros st. apply Rstable_refl.
  - apply (preserves_bind Rstable Rstable_trans);
      [apply Rstable_run_op | intros _; exact IH].
Qed.

(** ** The inbound buffer *)

Lemma run_event_readBuf e st :
  readBuf (conn (final (run_event e st)))
  = readBuf (conn st) ++ event_data e.
Proof.
  destruct st as [c w].
  destruct e; straight; rewrite ?app_nil_r; reflexivity.
Qed.

Lemma writeNoWait_readBuf b st :
  readBuf (conn (final (writeNoWait b st))) = readBuf (conn st).
Proof. destruct st as [c w]. straight; reflexivity. Qed.

(** [readNoWait] always returns; it hands over the front of the inbound
    buffer, as much as fits, and keeps the rest. *)
Lemma readNoWait_spec b st :
  let k := Nat.min (List.length b) (List.length (readBuf (conn st))) in
  exists err st',
    readNoWait b st
    = Ret (firstn k (readBuf (conn st)) ++ skipn k b, Z.of_nat k, err) st'
    /\ readBuf (conn st') = skipn k (readBuf (conn st)).
Proof.
  destruct st as [c w]. cbn [conn].
  straight; rewrite ?Nat2Z.id; eauto.
Qed.

(** ** The loops end *)

Lemma Rpending_trans st1 st2 st3 :
  Rpending st1 st2 -> Rpending st2 st3 -> Rpending st1 st3.
Proof. unfold Rpending. congruence. Qed.

Lemma Rpending_event e : preserves Rpending (run_event e).
Proof. intros [c w]. destruct e; straight; reflexivity. Qed.

Lemma Rpending_run_events es : preserves Rpending (run_events es).
Proof.
  apply preserves_run_events.
  - reflexivity.
  - exact Rpending_trans.
  - exact Rpending_event.
Qed.

Lemma Rpending_readNoWait b : preserves Rpending (readNoWait b).
Proof. intros [c w]. straight; reflexivity. Qed.

Lemma Rpending_writeNoWait b : preserves Rpending (writeNoWait b).
Proof. intros [c w]. straight; reflexivity. Qed.

Lemma run_event_fueled e st : fueled (run_event e st).
Proof. destruct st as [c w]. destruct e; straight; exact I. Qed.

Lemma run_events_fueled es : forall st, fueled (run_events es st).
Proof.
  induction es as [|e es IH]; intros st; cbn [run_events].
  - exact I.
  - unfold bind. pose proof (run_event_fueled e st) as H.
    destruct (run_event e st); auto.
Qed.

Lemma wait_for_broadcast_fueled batches :
  forall st, fueled (wait_for_broadcast batches st).
Proof.
  induction batches as [|batch rest IH]; intros st;
    cbn [wait_for_broadcast]; [exact I|].
  pose proof (run_events_fueled batch (pop_pending rest st)) as H.
  destruct (run_events batch (pop_pending rest st))
    as [[] st1|v st1|st1|st1]; try exact H.
  destruct (broadcast_since _ st1); [exact I | apply IH].
Qed.

Lemma cond_Wait_fueled st : fueled (cond_Wait st).
Proof. apply wait_for_broadcast_fueled. Qed.

Lemma wait_for_broadcast_pending batches :
  forall st a st',
    wait_for_broadcast batches st = Ret a st' ->
    (List.length (pending (world st')) < List.length batches)%nat.
Proof.
  induction batches as [|batch rest IH]; intros st a st';
    cbn [wait_for_broadcast]; [discriminate|].
  pose proof (Rpending_run_events batch (pop_pending rest st)) as HP.
  destruct (run_events batch (pop_pending rest st))
    as [[] st1|v st1|st1|st1]; try discriminate.
  unfold Rpending in HP. cbn in HP.
  destruct (broadcast_since _ st1).
  - intros H. injection H as _ <-. rewrite HP. cbn. lia.
  - intros H. apply IH in H. cbn. lia.
Qed.

(** A wait that ends has taken at least one batch off the world. *)
Lemma cond_Wait_waits st a st' :
  cond_Wait st = Ret a st' -> (waits st' < waits st)%nat.
Proof. unfold cond_Wait, waits. apply wait_for_broadcast_pending. Qed.

Lemma readNoWait_fueled b st : fueled (readNoWait b st).
Proof.
  destruct (readNoWait_spec b st) as (err & st' & E & _).
  cbv zeta in E. rewrite E. exact I.
Qed.

Lemma writeNoWait_fueled b st : fueled (writeNoWait b st).
Proof. destruct st as [c w]. straight; exact I. Qed.

Lemma waitForConnect_loop_fueled fuel :
  forall st, (waits st < fuel)%nat -> fueled (waitForConnect_loop fuel st).
Proof.
  induction fuel as [|fuel IH]; intros st Hf; [lia|].
  cbn [waitForConnect_loop]. unfold bind at 1, get at 1.
  destruct (libError (conn st)); [exact I|].
  destruct (gotConnect (conn st)); [exact I|].
  unfold bind.
  pose proof (cond_Wait_fueled st) as HW.
  destruct (cond_Wait st) as [a st1| | |] eqn:E; auto.
  apply IH. apply cond_Wait_waits in E. lia.
Qed.

Lemma Read_loop_fueled fuel :
  forall b st, (waits st < fuel)%nat -> fueled (Read_loop fuel b st).
Proof.
  induction fuel as [|fuel IH]; intros b st Hf; [lia|].
  cbn [Read_loop]. unfold bind at 1.
  pose proof (readNoWait_fueled b st) as HF.
  pose proof (Rpending_readNoWait b st) as HP.
  destruct (readNoWait b st) as [[[b' n] err] st1| | |]; auto.
  unfold Rpending in HP. cbn [final] in HP.
  unfold bind at 1, modify at 1.
  destruct (negb (n =? 0) || (len b =? 0) || notnil err); [exact I|].
  unfold bind.
  set (st2 := mkSt _ (world st1)).
  assert (HP2 : waits st2 = waits st).
  { unfold waits, st2. cbn. now rewrite HP. }
  clearbody st2.
  pose proof (cond_Wait_fueled st2) as HW.
  destruct (cond_Wait st2) as [a st3| | |] eqn:E; auto.
  apply IH. apply cond_Wait_waits in E. lia.
Qed.

Lemma skipn_shorter (b : list byte) (n : Z) :
  0 < n -> n <= len b ->
  (List.length (skipn (Z.to_nat n) b) < List.length b)%nat.
Proof. unfold len. intros H1 H2. rewrite length_skipn. lia. Qed.

Lemma Write_loop_fueled fuel :
  forall b n st,
    (List.length b + waits st < fuel)%nat -> fueled (Write_loop fuel b n st).
Proof.
  induction fuel as [|fuel IH]; intros b n st Hf; [lia|].
  cbn [Write_loop].
  destruct (len b =? 0); [exact I|].
  unfold bind at 1.
  pose proof (writeNoWait_fueled b st) as HF.
  pose proof (Rpending_writeNoWait b st) as HP.
  destruct (writeNoWait b st) as [[n1 err] st1|v st1|st1|st1] eqn:EW; auto.
  unfold Rpending in HP. cbn [final] in HP.
  assert (Hn1 : 0 <= n1).
  { clear - EW. destruct st as [c w]. revert EW. straight;
      intros EW; inversion EW; subst; lia. }
  unfold bind at 1, slice_from.
  destruct ((n1 <? 0) || (len b <? n1)) eqn:Hs; [exact I|].
  apply orb_false_elim in Hs as [_ Hs]. apply Z.ltb_ge in Hs.
  unfold ret at 1.
  assert (HW1 : waits st1 = waits st) by (unfold waits; now rewrite HP).
  destruct err; [exact I|].
  destruct (n1 =? 0) eqn:Hz; cbn [negb].
  - unfold bind.
    pose proof (cond_Wait_fueled st1) as HW.
    destruct (cond_Wait st1) as [a st2| | |] eqn:E; auto.
    apply IH. apply cond_Wait_waits in E.
    rewrite length_skipn. lia.
  - apply Z.eqb_neq in Hz. apply IH.
    pose proof (skipn_shorter b n1). lia.
Qed.

(** The three blocking calls never run out of fuel: each ends in a return,
    a panic, or a caller that nobody wakes. *)
Lemma Read_fueled b st : fueled (Read b st).
Proof. apply Read_loop_fueled. lia. Qed.

Lemma waitForConnect_fueled st : fueled (waitForConnect st).
Proof. apply waitForConnect_loop_fueled. lia. Qed.

Lemma Write_fueled b st : fueled (Write b st).
Proof.
  unfold Write, bind at 1.
  pose proof (Write_loop_fueled (S (List.length b + waits st)) b 0 st) as H.
  destruct (Write_loop (S (List.length b + waits st)) b 0 st)
    as [[n err] st1| | |]; try exact I.
  apply H. lia.
Qed.

(** ** What [Write] hands to the engine *)

Lemma Rquiet_refl st : Rquiet st st.
Proof. exists []. split; [reflexivity | constructor]. Qed.

Lemma Rquiet_trans st1 st2 st3 :
  Rquiet st1 st2 -> Rquiet st2 st3 -> Rquiet st1 st3.
Proof.
  intros (n1 & H1 & F1) (n2 & H2 & F2). exists (n2 ++ n1). split.
  - now rewrite H2, H1, app_assoc.
  - apply Forall_app. auto.
Qed.

Lemma Rquiet_event e : preserves Rquiet (run_event e).
Proof.
  intros [c w]. destruct e; straight;
    match goal with
    | |- Rquiet _ (mkSt _ (mkWorld _ _ _ _ (?a :: ?b :: ?c :: ?t) _)) =>
        exists [a; b; c]
    | |- Rquiet _ (mkSt _ (mkWorld _ _ _ _ (?a :: ?b :: ?t) _)) =>
        exists [a; b]
    | |- Rquiet _ (mkSt _ (mkWorld _ _ _ _ (?a :: ?t) _)) => exists [a]
    | |- _ => exists []
    end; (split; [reflexivity | repeat constructor]).
Qed.

Lemma Rquiet_cond_Wait : preserves Rquiet cond_Wait.
Proof.
  apply preserves_cond_Wait.
  - exact Rquiet_refl.
  - exact Rquiet_trans.
  - intros. exists []. split; [reflexivity | constructor].
  - exact Rquiet_event.
Qed.

Lemma sum_accepted_app t2 t1 :
  sum_accepted (t2 ++ t1) = sum_accepted t2 + sum_accepted t1.
Proof.
  induction t2 as [|e t2 IH]; [reflexivity|].
  destruct e; cbn; rewrite ?IH; lia.
Qed.

Lemma bytes_accepted_app t2 t1 :
  bytes_accepted (t2 ++ t1) = bytes_accepted t1 ++ bytes_accepted t2.
Proof.
  induction t2 as [|e t2 IH]; cbn; [now rewrite app_nil_r|].
  destruct e; cbn; rewrite ?IH, ?app_assoc; reflexivity.
Qed.

Lemma quiet_accepts_nothing t :
  Forall no_write t ->
  sum_accepted t = 0 /\ bytes_accepted t = [] /\ Forall step_ok t.
Proof.
  induction 1 as [|e t He _ (IH1 & IH2 & IH3)]; [repeat split; constructor|].
  destruct e; cbn in *; try contradiction;
    (repeat split; [assumption .. | constructor; [exact I | assumption]]).
Qed.

Lemma firstn_plus (b : list byte) (i j : nat) :
  firstn i b ++ firstn j (skipn i b) = firstn (i + j) b.
Proof.
  revert b. induction i as [|i IH]; intros b; [reflexivity|].
  destruct b as [|x b]; cbn; [now rewrite firstn_nil | now rewrite IH].
Qed.

(** [writeNoWait] by cases on its error switch and on the engine's answer;
    it never touches the connection. *)
Lemma writeNoWait_spec b st :
  let w := world st in
  let r := engine w (nwrites w) b in
  let st' := final (writeNoWait b st) in
    conn st' = conn st
    /\ match write_terminal (conn st) (clock w (ticks w)) with
       | Some e =>
           writeNoWait b st = Ret (0, Some e) st'
           /\ trace (world st') = trace w
       | None =>
           match b with
           | [] => writeNoWait b st = Panic (panic_index 0 0) st'
                   /\ trace (world st') = trace w
           | _ :: _ =>
               trace (world st') = utp_write (s (conn st)) b r :: trace w
               /\ writeNoWait b st
                  = (if r <? 0 then Panic (panic_int r) st'
                     else Ret (r, None) st')
           end
       end.
Proof.
  destruct st as [c w]. cbn [world conn]. unfold write_terminal.
  straight; cbn in *; try discriminate; repeat split.
Qed.

Lemma len_skipn (b : list byte) (r : Z) :
  0 <= r <= len b -> len (skipn (Z.to_nat r) b) = len b - r.
Proof. unfold len. intros H. rewrite length_skipn. lia. Qed.

(** One accepted step, then events that leave the engine alone, then the
    rest of the loop on what is left of the buffer. *)
Lemma Write_post_step b n st h r st1 newW st2 res :
  0 <= r <= len b ->
  trace (world st1) = utp_write h b r :: trace (world st) ->
  trace (world st2) = newW ++ trace (world st1) ->
  Forall no_write newW ->
  Write_post (skipn (Z.to_nat r) b) (n + r) st2 res ->
  Write_post b n st res.
Proof.
  intros Hr H1 H2 HQ (new2 & HT & HP).
  destruct (quiet_accepts_nothing newW HQ) as (Qs & Qb & Qo).
  assert (Hok : Forall step_ok (newW ++ [utp_write h b r])).
  { apply Forall_app. split; [exact Qo|]. repeat constructor; cbn; lia. }
  assert (Htr : trace (world (final res))
                = (new2 ++ newW ++ [utp_write h b r]) ++ trace (world st)).
  { rewrite HT, H2, H1. rewrite <- !app_assoc. reflexivity. }
  destruct res as [[n' err] st'|v st'|st'|st']; cbn [final] in *.
  - destruct HP as (F & Hn & Hb & Hbound & He).
    rewrite len_skipn in Hbound, He by exact Hr.
    exists (new2 ++ newW ++ [utp_write h b r]). split; [exact Htr|].
    split; [apply Forall_app; auto|].
    split.
    { rewrite !sum_accepted_app. cbn. lia. }
    split.
    { rewrite !bytes_accepted_app. cbn. rewrite Qb, Hb. cbn.
      rewrite app_nil_r, firstn_plus. f_equal. lia. }
    split; [lia|].
    destruct err as [e|]; [|lia].
    destruct He as [Hlt Hex]. split; [lia | exact Hex].
  - exists (new2 ++ newW ++ [utp_write h b r]). split; [exact Htr|].
    destruct HP as [F | (h' & buf & r' & new' & E & F & Hv)].
    + left. apply Forall_app. auto.
    + right. exists h', buf, r', (new' ++ newW ++ [utp_write h b r]).
      split; [now rewrite E|]. split; [apply Forall_app; auto | exact Hv].
  - exists (new2 ++ newW ++ [utp_write h b r]). split; [exact Htr|].
    apply Forall_app. auto.
  - exists (new2 ++ newW ++ [utp_write h b r]). split; [exact Htr | exact I].
Qed.

Lemma Write_loop_trace fuel :
  forall b n st, Write_post b n st (Write_loop fuel b n st).
Proof.
  induction fuel as [|fuel IH]; intros b n st; cbn [Write_loop].
  - exists []. split; [reflexivity | exact I].
  - destruct (len b =? 0) eqn:Hl.
    + apply Z.eqb_eq in Hl. exists []. split; [reflexivity|]. cbn.
      rewrite Z.sub_diag. repeat split; try constructor; lia.
    + apply Z.eqb_neq in Hl.
      assert (Hlen : 0 < len b) by (unfold len in *; lia).
      unfold bind at 1.
      pose proof (writeNoWait_spec b st) as HS. cbv zeta in HS.
      remember (final (writeNoWait b st)) as st1 eqn:Est1.
      destruct HS as [Hc HS].
      destruct (write_terminal (conn st) _) as [e|] eqn:HT.
      * destruct HS as [E Ht]. rewrite E.
        unfold bind at 1, slice_from.
        replace ((0 <? 0) || (len b <? 0)) with false
          by (symmetry; apply orb_false_intro; [reflexivity | lia]).
        unfold ret. exists []. split; [exact Ht|]. cbn.
        replace (n + 0 - n) with 0 by lia.
        split; [constructor|]. split; [lia|]. split; [reflexivity|].
        split; [lia|]. split; [lia|].
        exists (clock (world st) (ticks (world st))). now rewrite Hc.
      * destruct b as [|x b0]; [cbn in Hl; lia|].
        set (b := x :: b0) in *.
        destruct HS as [Ht E]. rewrite E.
        set (r := engine (world st) (nwrites (world st)) b) in *.
        destruct (r <? 0) eqn:Hr.
        { apply Z.ltb_lt in Hr.
          exists [utp_write (s (conn st)) b r]. split; [exact Ht|].
          right. exists (s (conn st)), b, r, [].
          split; [reflexivity|]. split; [constructor | auto]. }
        apply Z.ltb_ge in Hr.
        unfold bind at 1, slice_from.
        replace (r <? 0) with false by (symmetry; lia). cbn [orb].
        destruct (len b <? r) eqn:Hs.
        { apply Z.ltb_lt in Hs. unfold panic.
          exists [utp_write (s (conn st)) b r]. split; [exact Ht|].
          right. exists (s (conn st)), b, r, [].
          split; [reflexivity|]. split; [constructor | auto]. }
        apply Z.ltb_ge in Hs. unfold ret at 1.
        destruct (r =? 0) eqn:Hz; cbn [negb].
        { unfold bind.
          pose proof (Rquiet_cond_Wait st1) as (newW & HW & HQ).
          destruct (cond_Wait st1) as [[] st2|v st2|st2|st2] eqn:EW;
            cbn [final] in HW.
          - eapply (Write_post_step b n st _ r st1 newW st2);
              [lia | exact Ht | exact HW | exact HQ | apply IH].
          - exists (newW ++ [utp_write (s (conn st)) b r]).
            split; [cbn [final]; rewrite HW, Ht, <- app_assoc; reflexivity|].
            left. apply Forall_app.
            split; [apply quiet_accepts_nothing, HQ|].
            repeat constructor; cbn; lia.
          - exists (newW ++ [utp_write (s (conn st)) b r]).
            split; [cbn [final]; rewrite HW, Ht, <- app_assoc; reflexivity|].
            apply Forall_app.
            split; [apply quiet_accepts_nothing, HQ|].
            repeat constructor; cbn; lia.
          - exists (newW ++ [utp_write (s (conn st)) b r]).
            split; [cbn [final]; rewrite HW, Ht, <- app_assoc; reflexivity|].
            exact I. }
        eapply (Write_post_step b n st _ r st1 [] st1);
          [lia | exact Ht | reflexivity | constructor | apply IH].
Qed.

Lemma Write_trace b st : Write_post b 0 st (Write b st).
Proof.
  unfold Write, bind at 1.
  pose proof (Write_loop_trace (S (List.length b + waits st)) b 0 st) as H.
  destruct (Write_loop (S (List.length b + waits st)) b 0 st)
    as [[n err] st1|v st1|st1|st1]; exact H.
Qed.

(** ** The engine's close primitive *)

Lemma Rclose_refl st : Rclose st st.
Proof. unfold Rclose. lia. Qed.

Lemma Rclose_trans st1 st2 st3 :
  Rclose st1 st2 -> Rclose st2 st3 -> Rclose st1 st3.
Proof. unfold Rclose. lia. Qed.

Ltac close_arith :=
  unfold Rclose, close_due; cbn;
  repeat match goal with
    | H : _ = true |- _ => rewrite H
    | H : _ = false |- _ => rewrite H
    end;
  cbn; try lia;
  repeat match goal with
    | |- context [closed ?c] => destruct (closed c)
    | |- context [destroyed ?c] => destruct (destroyed c)
    end; cbn; lia.

Lemma Rclose_event e : preserves Rclose (run_event e).
Proof. intros [c w]. destruct e; straight; close_arith. Qed.

Lemma Rclose_run_op o : preserves Rclose (run_op o).
Proof.
  apply preserves_run_op;
    try (intros; intros [c w]; straight; close_arith).
  - exact Rclose_refl.
  - exact Rclose_trans.
  - intros. close_arith.
Qed.

Lemma Rclose_run_ops os : preserves Rclose (run_ops os).
Proof.
  induction os as [|o os IH]; cbn [run_ops].
  - intros st. apply Rclose_refl.
  - apply (preserves_bind Rclose Rclose_trans);
      [apply Rclose_run_op | intros _; exact IH].
Qed.

(** * Properties of the connection *)

(** With end-of-stream signalled, [Read] reports [io.EOF] whatever is left
    in the inbound buffer. *)
Lemma Read_EOF_whenever_signalled b st :
  gotEOF (conn st) = true ->
  exists b' n st', Read b st = Ret (b', n, Some io_EOF) st'.
Proof.
  intros H. destruct st as [c w]. destruct c. cbn in H. subst.
  unfold Read. cbn [Read_loop].
  straight; eauto;
    match goal with
    | H : _ || true = false |- _ => rewrite orb_true_r in H; discriminate H
    end.
Qed.

(** C1 (code bug). After on-connected, on-data([0x41,0x42,0x43]) and on-eof,
    a [Read] with a 2-byte buffer returns [(2, io.EOF)] with bytes
    [[0x41,0x42]] although the byte [0x43] is still buffered; the next
    [Read], with a 4-byte buffer, returns [(1, io.EOF)] with that byte.
    End-of-stream is reported before the buffer is drained. *)
Theorem Read_EOF_before_drained :
  exists st0 st1 st2,
    (setConnected ;; onData [x41; x42; x43] ;; setGotEOF) start = Ret tt st0
    /\ Read [x00; x00] st0 = Ret ([x41; x42], 2, Some io_EOF) st1
    /\ readBuf (conn st1) = [x43]
    /\ Read [x00; x00; x00; x00] st1
       = Ret ([x43; x00; x00; x00], 1, Some io_EOF) st2.
Proof.
  set (st0 := final ((setConnected ;; onData [x41; x42; x43] ;; setGotEOF)
                       start)).
  set (st1 := final (Read [x00; x00] st0)).
  exists st0, st1, (final (Read [x00; x00; x00; x00] st1)).
  split; [vm_compute; reflexivity|].
  split; [vm_compute; reflexivity|].
  split; vm_compute; reflexivity.
Qed.

(** [Write] on a closed and destroyed connection reports "closed". *)
Lemma Write_closed_and_destroyed_run :
  Write [x01] closed_and_destroyed
  = Ret (0, Some (errors_New "closed")) closed_and_destroyed.
Proof. reflexivity. Qed.

(** C2 (counterexample). A connection with [destroyed] and [closed] both
    set and no latched error, on which [Write] of one byte does not report
    the destroyed error: it reports the closed one. *)
Lemma Write_closed_and_destroyed_not_destroyed :
  destroyed (conn closed_and_destroyed) = true
  /\ closed (conn closed_and_destroyed) = true
  /\ libError (conn closed_and_destroyed) = None
  /\ (exists st',
        Write [x01] closed_and_destroyed
        = Ret (0, Some (errors_New "closed")) st')
  /\ ~ (exists n st',
          Write [x01] closed_and_destroyed
          = Ret (n, Some (errors_New "destroyed")) st').
Proof.
  repeat split.
  - eexists. exact Write_closed_and_destroyed_run.
  - intros (n & st' & H). rewrite Write_closed_and_destroyed_run in H.
    discriminate H.
Qed.

(** A [Write] of a non-empty buffer that meets a terminal condition at
    once: no byte is offered to the engine and the error of the switch is
    returned. *)
Lemma Write_terminal_at_once b st e :
  b <> [] ->
  write_terminal (conn st) (clock (world st) (ticks (world st))) = Some e ->
  exists st',
    Write b st = Ret (0, Some e) st'
    /\ trace (world st') = trace (world st).
Proof.
  intros Hb HT.
  pose proof (writeNoWait_spec b st) as HS. cbv zeta in HS.
  rewrite HT in HS. destruct HS as (Hc & E & Ht).
  assert (Hl : (len b =? 0) = false).
  { apply Z.eqb_neq. destruct b; [contradiction | cbn; lia]. }
  assert (Hs : (0 <? 0) || (len b <? 0) = false).
  { apply orb_false_intro; [reflexivity | apply Z.ltb_ge; unfold len; lia]. }
  unfold Write. cbn [Write_loop]. rewrite Hl.
  unfold bind at 1. unfold bind at 1. rewrite E.
  unfold bind at 1, slice_from. rewrite Hs.
  cbn. eexists. split; [reflexivity | exact Ht].
Qed.

(** C2 (amended). For a [Write] of a non-empty buffer the precedence is
    latched engine error, then closed, then destroyed, then write deadline
    exceeded: with [closed] set and no latched error [Write] returns
    [(0, "closed")], whether or not [destroyed] is set as well. *)
Theorem Write_error_precedence b st :
  b <> [] ->
  let c := conn st in
  let now := clock (world st) (ticks (world st)) in
  (forall e, libError c = Some e ->
     exists st', Write b st = Ret (0, Some e) st')
  /\ (libError c = None -> closed c = true ->
      exists st', Write b st = Ret (0, Some (errors_New "closed")) st')
  /\ (libError c = None -> closed c = false -> destroyed c = true ->
      exists st', Write b st = Ret (0, Some (errors_New "destroyed")) st')
  /\ (libError c = None -> closed c = false -> destroyed c = false ->
      time.IsZero (writeDeadline c) = false ->
      time.Before now (writeDeadline c) = false ->
      exists st', Write b st = Ret (0, Some errDeadlineExceeded) st').
Proof.
  intros Hb c now. repeat split; intros;
    match goal with
    | |- exists st', Write b st = Ret (0, Some ?e) st' =>
        destruct (Write_terminal_at_once b st e) as (st' & E & _);
        [exact Hb | | exists st'; exact E]
    end;
    unfold write_terminal; fold c; fold now;
    repeat match goal with H : _ = _ |- _ => rewrite H end; reflexivity.
Qed.

(** C2 (witness): the closed and destroyed connection. *)
Lemma Write_error_precedence_witness :
  [x01] <> []
  /\ libError (conn closed_and_destroyed) = None
  /\ closed (conn closed_and_destroyed) = true
  /\ exists st',
      Write [x01] closed_and_destroyed
      = Ret (0, Some (errors_New "closed")) st'.
Proof.
  split; [discriminate|]. split; [reflexivity|]. split; [reflexivity|].
  destruct (Write_error_precedence [x01] closed_and_destroyed)
    as (_ & H & _); [discriminate|].
  apply H; reflexivity.
Defined.

(** Whenever [Read] empties a non-empty inbound buffer it tells the engine
    so, with whatever handle the connection holds, whatever its flags. *)
Lemma Read_drains_regardless b st :
  readBuf (conn st) <> [] ->
  (List.length (readBuf (conn st)) <= List.length b)%nat ->
  exists r st',
    Read b st = Ret r st'
    /\ trace (world st') = utp_read_drained (s (conn st)) :: trace (world st).
Proof.
  intros Hne Hle. destruct st as [c w]. destruct c. cbn in Hne, Hle.
  unfold Read. cbn [Read_loop].
  assert (Hmin : Nat.min (List.length b) (List.length readBuf0)
                 = List.length readBuf0) by lia.
  assert (Hpos : (0 < List.length readBuf0)%nat).
  { destruct readBuf0; [contradiction | cbn; lia]. }
  unfold_straight. cbn. rewrite Hmin, Nat2Z.id, skipn_all.
  replace (Z.of_nat (List.length readBuf0) =? 0) with false
    by (symmetry; apply Z.eqb_neq; lia).
  cbn. split_cases; eauto; exfalso;
    match goal with
    | H : (negb (_ =? 0) || _ || _) = false |- _ =>
        apply orb_false_elim in H as [H _];
        apply orb_false_elim in H as [H _];
        apply negb_false_iff, Z.eqb_eq in H; lia
    end.
Qed.

(** C3 (code bug). A byte is buffered and the connection is then destroyed
    (the handle is [nil]), closed (the handle is [nil]) or errored: the
    [Read] that empties the buffer still calls [utp_read_drained], with the
    handle the connection holds. *)
Theorem Read_drained_after_terminal :
  (exists st0 st1,
      (onData [x41] ;; onDestroyed) start = Ret tt st0
      /\ destroyed (conn st0) = true
      /\ Read [x00] st0 = Ret ([x41], 1, Some (errors_New "destroyed")) st1
      /\ trace (world st1) = utp_read_drained None :: trace (world st0))
  /\ (exists st0 st1,
      (onData [x41] ;; Close) start = Ret None st0
      /\ closed (conn st0) = true
      /\ Read [x00] st0 = Ret ([x41], 1, Some (errors_New "closed")) st1
      /\ trace (world st1) = utp_read_drained None :: trace (world st0))
  /\ (exists st0 st1,
      (onData [x41] ;; onLibError "ECONNRESET") start = Ret tt st0
      /\ libError (conn st0) = Some (errors_New "ECONNRESET")
      /\ Read [x00] st0 = Ret ([x41], 1, Some (errors_New "ECONNRESET")) st1
      /\ trace (world st1)
         = utp_read_drained (Some 1%nat) :: trace (world st0)).
Proof.
  repeat split; do 2 eexists; (split; [reflexivity|]);
    (split; [reflexivity|]); split; reflexivity.
Qed.

(** C4 (counterexample). On a connection with a latched error, a [Write]
    with an empty buffer returns [(0, nil)]: the error is not reported. *)
Lemma Write_empty_hides_latched_error :
  libError (conn errored) = Some (errors_New "ECONNRESET")
  /\ Write [] errored = Ret (0, None) errored
  /\ ~ (exists e st', Write [] errored = Ret (0, Some e) st').
Proof.
  split; [reflexivity|]. split; [reflexivity|].
  intros (e & st' & H). discriminate H.
Qed.

(** C4 (amended). A [Write] with an empty buffer never enters the loop: in
    every state it returns [(0, nil)] without the terminal-condition check,
    without reading the clock and without calling the engine; it only adds
    zero to the write counter. *)
Theorem Write_empty_is_noop st :
  Write [] st
  = Ret (0, None)
      (mkSt (set_numBytesWritten (wrap64 (numBytesWritten (conn st) + 0))
               (conn st))
         (world st)).
Proof. reflexivity. Qed.

(** C6. The first on-error upcall records its error; from then on, whatever
    operations and events complete in between, any further on-error upcall
    panics and leaves the connection as it was: the first error is neither
    overwritten nor dropped. *)
Theorem onLibError_latches_once st codeName :
  libError (conn st) = None ->
  exists st1,
    onLibError codeName st = Ret tt st1
    /\ libError (conn st1) = Some (errors_New codeName)
    /\ forall os st2 codeName2,
        run_ops os st1 = Ret tt st2 ->
        libError (conn st2) = Some (errors_New codeName)
        /\ onLibError codeName2 st2
           = Panic (panic_multiple_lib_errors codeName2 (errors_New codeName))
               st2.
Proof.
  intros H. destruct st as [c w]. cbn in H.
  unfold onLibError at 1. unfold_straight. cbn. rewrite H.
  eexists. split; [reflexivity|]. split; [reflexivity|].
  intros os st2 code2 Hrun.
  match type of Hrun with run_ops os ?st1 = _ =>
    pose proof (Rstable_run_ops os st1) as HS end.
  rewrite Hrun in HS. cbn [final] in HS.
  pose proof (stable_libError _ _ HS _ eq_refl) as HL.
  split; [exact HL|].
  destruct st2 as [c2 w2]. cbn in HL.
  unfold_straight. cbn. rewrite HL. reflexivity.
Qed.

(** C6 (witness): ECONNRESET on a fresh connection, then again. *)
Lemma onLibError_latches_once_witness :
  libError (conn start) = None
  /\ exists st1,
      onLibError "ECONNRESET" start = Ret tt st1
      /\ onLibError "ETIMEDOUT" st1
         = Panic (panic_multiple_lib_errors "ETIMEDOUT"
                    (errors_New "ECONNRESET")) st1.
Proof.
  split; [reflexivity|].
  destruct (onLibError_latches_once start "ECONNRESET" eq_refl)
    as (st1 & E & _ & H).
  exists st1. split; [exact E|].
  apply (H [] st1 "ETIMEDOUT"%string). reflexivity.
Defined.

Lemma Close_returns st : Close st = Ret None (final (Close st)).
Proof. destruct st as [c w]. straight; reflexivity. Qed.

Lemma Close_closes st : closed (conn (final (Close st))) = true.
Proof. destruct st as [c w]. straight; assumption || reflexivity. Qed.

Lemma Close_when_closed st :
  closed (conn st) = true -> Close st = Ret None st.
Proof.
  destruct st as [c w]. cbn. intros H. unfold_straight. cbn. now rewrite H.
Qed.

Lemma Close_times_when_closed k st :
  closed (conn st) = true -> Close_times k st = Ret None st.
Proof.
  intros H. induction k as [|k IH]; [reflexivity|].
  cbn [Close_times]. unfold bind. now rewrite (Close_when_closed st H).
Qed.

Lemma Close_counts st :
  count_utp_close (trace (world (final (Close st))))
  = (count_utp_close (trace (world st)) + close_due (conn st))%nat.
Proof.
  destruct st as [c w]. unfold close_due. straight;
    cbn in *; repeat match goal with H : _ = _ |- _ => rewrite H end;
    cbn; lia.
Qed.

(** C7. [Close] returns [nil] in every state and leaves the connection
    closed; a [Close] after that changes nothing at all, so any number of
    calls in a row ends in the state the first one reached. The first call
    asks the engine to close exactly when the connection was neither closed
    nor destroyed, and over any run of operations and events the engine is
    asked at most once, and not at all once closed or destroyed. *)
Theorem Close_idempotent st :
  exists st1,
    Close st = Ret None st1
    /\ closed (conn st1) = true
    /\ Close st1 = Ret None st1
    /\ (forall k, Close_times (S k) st = Ret None st1)
    /\ count_utp_close (trace (world st1))
       = (count_utp_close (trace (world st))
          + (if closed (conn st) || destroyed (conn st) then 0 else 1))%nat
    /\ (forall os,
          (count_utp_close (trace (world st))
           <= count_utp_close (trace (world (final (run_ops os st))))
           <= count_utp_close (trace (world st))
              + (if closed (conn st) || destroyed (conn st) then 0 else 1))%nat).
Proof.
  exists (final (Close st)).
  pose proof (Close_closes st) as Hc.
  split; [apply Close_returns|]. split; [exact Hc|].
  split; [apply Close_when_closed, Hc|].
  split.
  { intros k. cbn [Close_times]. unfold bind. rewrite (Close_returns st).
    apply Close_times_when_closed, Hc. }
  split; [apply Close_counts|].
  intros os. destruct (Rclose_run_ops os st) as [H1 H2].
  unfold close_due in H2.
  destruct (closed (conn (final (run_ops os st)))
            || destroyed (conn (final (run_ops os st)))); lia.
Qed.

(** C9 (counterexample). In 2026 a read deadline a little more than
    [2^63] ns (some 292 years) ahead: [SetReadDeadline] arms the read
    timer with the largest Duration, so the timer fires six nanoseconds
    before the deadline, not at that absolute time. *)
Lemma SetReadDeadline_far_deadline_fires_early :
  let now := clock (world in_2026) (ticks (world in_2026)) in
  let t := now + 2 ^ 63 + 5 in
  exists st',
    SetReadDeadline t in_2026 = Ret None st'
    /\ readDeadline (conn st') = t
    /\ readDeadlineTimer (conn st') = time.Armed (2 ^ 63 - 1)
    /\ now + (2 ^ 63 - 1) = t - 6
    /\ now + (2 ^ 63 - 1) <> t.
Proof.
  cbv zeta. eexists. split; [vm_compute; reflexivity|].
  split; [vm_compute; reflexivity|].
  split; [vm_compute; reflexivity|].
  split; [vm_compute; reflexivity|].
  vm_compute. discriminate.
Qed.

(** C9. [SetReadDeadline(t)] returns [nil]. It sets the read deadline to
    [t]; it stops the read timer when [t] is the zero time and otherwise
    reads the clock once and re-arms the read timer with the time left
    until [t] cut to the range of a Duration, so that the timer fires at
    [t] exactly when that time fits a Duration, before [t] when [t] is
    further ahead and after [t] when it is further behind; its last
    effect is the broadcast. The write deadline, its timer and every
    other field of the connection stay as they were. *)
Theorem SetReadDeadline_spec t st :
  let c := conn st in
  let w := world st in
  let now := clock w (ticks w) in
  let d := time.Sub t now in
  SetReadDeadline t st
  = Ret None
      (mkSt
         (set_readDeadlineTimer
            (if time.IsZero t then time.Stopped else time.Armed d)
            (set_readDeadline t c))
         (mkWorld (clock w)
            (if time.IsZero t then ticks w else S (ticks w))
            (engine w) (nwrites w)
            (broadcast
               :: (if time.IsZero t then timer_Stop read_timer
                   else timer_Reset read_timer d)
               :: trace w)
            (pending w)))
  /\ (time.minDuration <= t - now <= time.maxDuration -> now + d = t)
  /\ (time.maxDuration < t - now ->
      d = time.maxDuration /\ now + d < t)
  /\ (t - now < time.minDuration ->
      d = time.minDuration /\ t < now + d).
Proof.
  split.
  - destruct st as [c0 w0]. unfold SetReadDeadline. unfold_straight. cbn.
    destruct (time.IsZero t); reflexivity.
  - unfold time.Sub, time.minDuration, time.maxDuration.
    destruct (t - clock (world st) (ticks (world st)) <? - 2 ^ 63) eqn:E1;
      [apply Z.ltb_lt in E1 | apply Z.ltb_ge in E1];
      (destruct (2 ^ 63 - 1 <? t - clock (world st) (ticks (world st)))
         eqn:E2; [apply Z.ltb_lt in E2 | apply Z.ltb_ge in E2]);
      repeat split; lia.
Qed.

(** C9 (witness): a deadline 49 ns ahead of the clock; and, in 2026, a
    deadline more than 292 years ahead and one in the first nanosecond of
    year 1. *)
Lemma SetReadDeadline_spec_witness :
  (exists st',
      SetReadDeadline 50 start = Ret None st'
      /\ readDeadline (conn st') = 50
      /\ readDeadlineTimer (conn st') = time.Armed 49
      /\ writeDeadline (conn st') = writeDeadline (conn start)
      /\ writeDeadlineTimer (conn st') = writeDeadlineTimer (conn start)
      /\ trace (world st') = [broadcast; timer_Reset read_timer 49])
  /\ 1 + time.Sub 50 1 = 50
  /\ 63900000000000000000
      + time.Sub (63900000000000000000 + 2 ^ 63 + 5) 63900000000000000000
      < 63900000000000000000 + 2 ^ 63 + 5
  /\ 1 < 63900000000000000000 + time.Sub 1 63900000000000000000.
Proof.
  destruct (SetReadDeadline_spec 50 start) as (E & H & _).
  destruct (SetReadDeadline_spec (63900000000000000000 + 2 ^ 63 + 5) in_2026)
    as (_ & _ & Hfar & _).
  destruct (SetReadDeadline_spec 1 in_2026) as (_ & _ & _ & Hpast).
  split; [|split; [|split]].
  - eexists. split; [exact E|]. repeat split.
  - apply H. unfold time.minDuration, time.maxDuration. cbn. lia.
  - apply Hfar. unfold time.maxDuration. cbn. lia.
  - apply Hpast. unfold time.minDuration. cbn. lia.
Defined.

(** The loop of [Write] on meeting a terminal condition: it stops and
    returns the count it has accumulated together with the error. *)
Lemma Write_loop_stops fuel b n st e :
  b <> [] ->
  write_terminal (conn st) (clock (world st) (ticks (world st))) = Some e ->
  exists st',
    Write_loop (S fuel) b n st = Ret (n, Some e) st'
    /\ trace (world st') = trace (world st).
Proof.
  intros Hb HT.
  pose proof (writeNoWait_spec b st) as HS. cbv zeta in HS.
  rewrite HT in HS. destruct HS as (Hc & E & Ht).
  assert (Hl : (len b =? 0) = false).
  { apply Z.eqb_neq. destruct b; [contradiction | cbn; lia]. }
  assert (Hs : (0 <? 0) || (len b <? 0) = false).
  { apply orb_false_intro; [reflexivity | apply Z.ltb_ge; unfold len; lia]. }
  cbn [Write_loop]. rewrite Hl.
  unfold bind at 1. rewrite E.
  unfold bind at 1, slice_from. rewrite Hs.
  cbn. rewrite Z.add_0_r. eexists. split; [reflexivity | exact Ht].
Qed.

(** C5. When [Write] returns [(n, err)], [n] is the sum of the counts the
    engine accepted in the calls of [utp_write] this [Write] made, and the
    bytes the engine took are the first [n] bytes of the buffer, each once
    and in order. Without an error the whole buffer was taken; with one, it
    is the error of a terminal condition and [n] is the part accepted
    before. The loop, on meeting a terminal condition, returns the count
    accumulated so far with that error. *)
Theorem Write_count_is_accepted :
  (forall b st n err st',
      Write b st = Ret (n, err) st' ->
      exists new,
        trace (world st') = new ++ trace (world st)
        /\ n = sum_accepted new
        /\ bytes_accepted new = firstn (Z.to_nat n) b
        /\ 0 <= n <= len b
        /\ match err with
           | None => n = len b
           | Some e =>
               n < len b
               /\ exists now, write_terminal (conn st') now = Some e
           end)
  /\ (forall fuel b n st e,
        b <> [] ->
        write_terminal (conn st) (clock (world st) (ticks (world st)))
        = Some e ->
        exists st', Write_loop (S fuel) b n st = Ret (n, Some e) st').
Proof.
  split.
  - intros b st n err st' H.
    pose proof (Write_trace b st) as HP. rewrite H in HP.
    destruct HP as (new & HT & _ & Hn & Hb & Hbound & He).
    rewrite Z.sub_0_r in *. rewrite Z.add_0_l in Hn.
    exists new. auto.
  - intros fuel b n st e Hb HT.
    destruct (Write_loop_stops fuel b n st e Hb HT) as (st' & E & _).
    exists st'. exact E.
Qed.

(** C5 (witness): the engine takes two of three bytes, then nothing; the
    writer waits, ECONNRESET arrives, and [Write] returns [(2, ECONNRESET)]. *)
Lemma Write_count_is_accepted_witness :
  let st' := final (Write [x01; x02; x03] reset_while_writing) in
  Write [x01; x02; x03] reset_while_writing
  = Ret (2, Some (errors_New "ECONNRESET")) st'
  /\ exists new,
      trace (world st') = new ++ trace (world reset_while_writing)
      /\ 2 = sum_accepted new
      /\ bytes_accepted new = [x01; x02].
Proof.
  intros st'.
  assert (E : Write [x01; x02; x03] reset_while_writing
              = Ret (2, Some (errors_New "ECONNRESET")) st')
    by reflexivity.
  split; [exact E|].
  destruct (proj1 Write_count_is_accepted _ _ _ _ _ E)
    as (new & HT & Hn & Hb & _).
  exists new. auto.
Defined.

Lemma Write_first_answer_negative b st :
  b <> [] ->
  write_terminal (conn st) (clock (world st) (ticks (world st))) = None ->
  engine (world st) (nwrites (world st)) b < 0 ->
  exists st',
    writeNoWait b st
    = Panic (panic_int (engine (world st) (nwrites (world st)) b)) st'
    /\ Write b st
       = Panic (panic_int (engine (world st) (nwrites (world st)) b)) st'.
Proof.
  intros Hb HT Hr.
  pose proof (writeNoWait_spec b st) as HS. cbv zeta in HS.
  rewrite HT in HS. destruct HS as (_ & HS).
  destruct b as [|x b]; [contradiction|].
  destruct HS as [_ E].
  apply Z.ltb_lt in Hr. rewrite Hr in E.
  eexists. split; [exact E|].
  unfold Write. cbn [Write_loop].
  replace (len (x :: b) =? 0) with false
    by (symmetry; apply Z.eqb_neq; unfold len; cbn; lia).
  unfold bind at 1. unfold bind at 1. rewrite E. reflexivity.
Qed.

(** C10. When the engine answers [utp_write] with a negative count the
    write path panics with that count: it does so at the first call, and
    in any run of [Write] a negative answer in the trace means that the
    run ended in that panic. So a [Write] that returns has a count that is
    not negative, and every answer it went on from lies between zero and
    the number of bytes offered. *)
Theorem Write_negative_count_panics :
  (forall b st,
      b <> [] ->
      write_terminal (conn st) (clock (world st) (ticks (world st))) = None ->
      engine (world st) (nwrites (world st)) b < 0 ->
      exists st',
        writeNoWait b st
        = Panic (panic_int (engine (world st) (nwrites (world st)) b)) st'
        /\ Write b st
           = Panic (panic_int (engine (world st) (nwrites (world st)) b)) st')
  /\ (forall b st new h buf r,
        trace (world (final (Write b st))) = new ++ trace (world st) ->
        In (utp_write h buf r) new -> r < 0 ->
        exists st', Write b st = Panic (panic_int r) st')
  /\ (forall b st n err st',
        Write b st = Ret (n, err) st' ->
        0 <= n
        /\ exists new,
            trace (world st') = new ++ trace (world st)
            /\ Forall step_ok new).
Proof.
  split; [exact Write_first_answer_negative|]. split.
  - intros b st new h buf r HT Hin Hr.
    pose proof (Write_trace b st) as (new0 & HT0 & HP).
    rewrite HT in HT0. apply app_inv_tail in HT0. subst new0.
    assert (Hbad : ~ Forall step_ok new).
    { intros F. rewrite Forall_forall in F. specialize (F _ Hin).
      cbn in F. lia. }
    destruct (Write b st) as [[n err] st'|v st'|st'|st'] eqn:E.
    + destruct HP as (F & _). contradiction.
    + destruct HP as [F | (h' & buf' & r' & new' & En & F & Hv)];
        [contradiction|].
      subst new. destruct Hin as [Hin | Hin].
      * inversion Hin; subst.
        destruct Hv as [[_ Hv] | [Hv _]]; [|unfold len in Hv; lia].
        subst v. eauto.
      * exfalso. rewrite Forall_forall in F. specialize (F _ Hin).
        cbn in F. lia.
    + contradiction.
    + pose proof (Write_fueled b st) as HF. rewrite E in HF. contradiction.
  - intros b st n err st' H.
    pose proof (Write_trace b st) as HP. rewrite H in HP.
    destruct HP as (new & HT & F & _ & _ & Hbound & _).
    split; [lia|]. exists new. auto.
Qed.

(** C10 (witness): the engine answers the first [utp_write] with -1. *)
Lemma Write_negative_count_panics_witness :
  [x01] <> []
  /\ engine (world engine_fails) (nwrites (world engine_fails)) [x01] < 0
  /\ exists st', Write [x01] engine_fails = Panic (panic_int (-1)) st'.
Proof.
  split; [discriminate|]. split; [reflexivity|].
  destruct (proj1 Write_negative_count_panics [x01] engine_fails)
    as (st' & _ & E); [discriminate | reflexivity | reflexivity |].
  exists st'. exact E.
Defined.

(** * Further properties *)

(** ** One pass of the read loop *)

Lemma readNoWait_run b st :
  let c := conn st in
  let w := world st in
  let k := Nat.min (List.length b) (List.length (readBuf c)) in
  readNoWait b st
  = Ret (firstn k (readBuf c) ++ skipn k b, Z.of_nat k,
         read_terminal c (clock w (ticks w)))
      (after_readNoWait b st).
Proof.
  destruct st as [c w]. destruct c, w.
  unfold after_readNoWait, read_terminal, read_reads_clock.
  unfold_straight. cbn. rewrite Nat2Z.id.
  split_cases; cbn in *; try discriminate; reflexivity.
Qed.

(** [Read_loop] unfolded once: one pass of [readNoWait], the counter, and
    either the return or a wait followed by the rest of the loop. *)
Lemma Read_loop_step fuel b st :
  let c := conn st in
  let w := world st in
  let k := Nat.min (List.length b) (List.length (readBuf c)) in
  let err := read_terminal c (clock w (ticks w)) in
  let b' := firstn k (readBuf c) ++ skipn k b in
  let st1 := count_read (Z.of_nat k) (after_readNoWait b st) in
  Read_loop (S fuel) b st
  = if negb (Z.of_nat k =? 0) || (len b =? 0) || notnil err
    then Ret (b', Z.of_nat k, err) st1
    else (cond_Wait ;; Read_loop fuel b') st1.
Proof.
  cbv zeta. cbn [Read_loop]. unfold bind at 1.
  pose proof (readNoWait_run b st) as E. cbv zeta in E. rewrite E.
  unfold bind at 1. unfold modify at 1. fold (count_read
    (Z.of_nat (Nat.min (List.length b) (List.length (readBuf (conn st)))))
    (after_readNoWait b st)).
  destruct (negb _ || _ || _); reflexivity.
Qed.

(** [Read] returns at its first pass, without waiting, when the caller's
    buffer is empty, a byte is buffered, or the switch reports an error. *)
Lemma Read_at_once b st :
  let c := conn st in
  let w := world st in
  let k := Nat.min (List.length b) (List.length (readBuf c)) in
  let err := read_terminal c (clock w (ticks w)) in
  b = [] \/ readBuf c <> [] \/ err <> None ->
  Read b st
  = Ret (firstn k (readBuf c) ++ skipn k b, Z.of_nat k, err)
      (count_read (Z.of_nat k) (after_readNoWait b st)).
Proof.
  cbv zeta. intros H. unfold Read.
  pose proof (Read_loop_step (waits st) b st) as E. cbv zeta in E.
  rewrite E. clear E.
  match goal with |- (if ?c then _ else _) = _ =>
    replace c with true; [reflexivity|] end.
  symmetry. destruct H as [H | [H | H]].
  - subst b. cbn. rewrite ?orb_true_r. reflexivity.
  - destruct b as [|x b]; [cbn; rewrite ?orb_true_r; reflexivity|].
    destruct (readBuf (conn st)) as [|y rb]; [contradiction|].
    reflexivity.
  - destruct (read_terminal _ _); [|contradiction].
    cbn. rewrite ?orb_true_r. reflexivity.
Qed.

(** ** Reading without waiting *)

(** X1. A [Read] with a zero-length buffer never waits: it returns
    [(0, err)] at once, [err] being what the switch reports at that moment,
    and it consumes no buffered byte, takes no event off the world and
    makes no call into the engine. *)
Theorem Read_empty_buffer_never_blocks st :
  exists st',
    Read [] st
    = Ret ([], 0, read_terminal (conn st)
                    (clock (world st) (ticks (world st)))) st'
    /\ readBuf (conn st') = readBuf (conn st)
    /\ pending (world st') = pending (world st)
    /\ trace (world st') = trace (world st).
Proof.
  eexists. split.
  - rewrite (Read_at_once [] st) by (left; reflexivity). reflexivity.
  - repeat split.
Qed.

(** X2. With a byte buffered and room in the caller's buffer, [Read]
    returns at once the front of the inbound buffer, as much as fits, and
    keeps the rest buffered; it does so together with whatever error the
    switch reports, and without taking an event off the world. *)
Theorem Read_returns_buffered_at_once b st :
  b <> [] ->
  readBuf (conn st) <> [] ->
  let rb := readBuf (conn st) in
  let k := Nat.min (List.length b) (List.length rb) in
  exists st',
    Read b st
    = Ret (firstn k rb ++ skipn k b, Z.of_nat k,
           read_terminal (conn st) (clock (world st) (ticks (world st)))) st'
    /\ (0 < k)%nat
    /\ readBuf (conn st') = skipn k rb
    /\ pending (world st') = pending (world st).
Proof.
  intros Hb Hrb rb k. eexists. split.
  - rewrite (Read_at_once b st) by (right; left; exact Hrb). reflexivity.
  - split; [|split; reflexivity].
    subst k rb. destruct b; [contradiction|].
    destruct (readBuf (conn st)); [contradiction|]. cbn. lia.
Qed.

(** X2 (witness): three bytes buffered, a two-byte buffer. *)
Lemma Read_returns_buffered_at_once_witness :
  let st := mkSt (set_readBuf [x41; x42; x43] fresh) still in
  exists st',
    Read [x00; x00] st = Ret ([x41; x42], 2, None) st'
    /\ readBuf (conn st') = [x43].
Proof.
  intros st.
  destruct (Read_returns_buffered_at_once [x00; x00] st)
    as (st' & E & _ & Hrb & _); [discriminate | discriminate |].
  exists st'. split; [exact E | exact Hrb].
Defined.

(** X3. The error a returning first pass of [Read] reports follows the
    order of the switch in [readNoWait]: end of stream, then the latched
    engine error, then destroyed, then closed, then read deadline reached;
    in each case the buffered bytes that fit are still handed over. *)
Theorem Read_error_precedence b st :
  let c := conn st in
  let now := clock (world st) (ticks (world st)) in
  let k := Nat.min (List.length b) (List.length (readBuf c)) in
  let b' := firstn k (readBuf c) ++ skipn k b in
  (gotEOF c = true ->
   exists st', Read b st = Ret (b', Z.of_nat k, Some io_EOF) st')
  /\ (forall e, gotEOF c = false -> libError c = Some e ->
      exists st', Read b st = Ret (b', Z.of_nat k, Some e) st')
  /\ (gotEOF c = false -> libError c = None -> destroyed c = true ->
      exists st',
        Read b st = Ret (b', Z.of_nat k, Some (errors_New "destroyed")) st')
  /\ (gotEOF c = false -> libError c = None -> destroyed c = false ->
      closed c = true ->
      exists st',
        Read b st = Ret (b', Z.of_nat k, Some (errors_New "closed")) st')
  /\ (gotEOF c = false -> libError c = None -> destroyed c = false ->
      closed c = false -> time.IsZero (readDeadline c) = false ->
      time.Before now (readDeadline c) = false ->
      exists st',
        Read b st = Ret (b', Z.of_nat k, Some errDeadlineExceeded) st').
Proof.
  cbv zeta. repeat split; intros;
    eexists;
    (rewrite (Read_at_once b st);
     [ unfold read_terminal;
       repeat match goal with H : _ = _ |- _ => rewrite H end; reflexivity
     | right; right; unfold read_terminal;
       repeat match goal with H : _ = _ |- _ => rewrite H end;
       discriminate ]).
Qed.

(** X3 (witness): closed and destroyed, with a latched error on top. *)
Lemma Read_error_precedence_witness :
  let st := mkSt (set_libError (Some (errors_New "ECONNRESET"))
                    (conn closed_and_destroyed)) still in
  (exists st', Read [x00] st
               = Ret ([x00], 0, Some (errors_New "ECONNRESET")) st')
  /\ (exists st', Read [x00] closed_and_destroyed
                  = Ret ([x00], 0, Some (errors_New "destroyed")) st').
Proof.
  intros st. split.
  - destruct (Read_error_precedence [x00] st) as (_ & H & _).
    apply (H (errors_New "ECONNRESET")); reflexivity.
  - destruct (Read_error_precedence [x00] closed_and_destroyed)
      as (_ & _ & H & _).
    apply H; reflexivity.
Defined.

(** ** Reading with waiting *)

Lemma run_event_not_Blocked e st st' : run_event e st <> Blocked st'.
Proof. destruct st as [c w]. destruct e; straight; discriminate. Qed.

Lemma run_events_not_Blocked es : forall st st', run_events es st <> Blocked st'.
Proof.
  induction es as [|e es IH]; intros st st'; cbn [run_events].
  - discriminate.
  - unfold bind. pose proof (run_event_not_Blocked e st) as H.
    destruct (run_event e st); try discriminate; [apply IH | apply H].
Qed.

(** Every event broadcasts exactly once, save a [Close] on a connection
    that is closed already, which does nothing at all. *)
Lemma run_event_broadcasts e st a st' :
  run_event e st = Ret a st' ->
  count_broadcast (trace (world st'))
  = S (count_broadcast (trace (world st)))
  \/ st' = st.
Proof.
  destruct st as [c w]. destruct e; straight; intros H;
    inversion H; subst; clear H; cbn; auto.
Qed.

Lemma run_events_broadcasts es :
  forall st a st',
    run_events es st = Ret a st' ->
    (count_broadcast (trace (world st))
     <= count_broadcast (trace (world st')))%nat
    /\ (count_broadcast (trace (world st'))
        = count_broadcast (trace (world st)) -> st' = st).
Proof.
  induction es as [|e es IH]; intros st a st'; cbn [run_events].
  - intros H. inversion H. auto.
  - unfold bind. destruct (run_event e st) as [[] st1|v st1|st1|st1] eqn:E;
      try discriminate.
    intros H. apply IH in H as [H1 H2].
    apply run_event_broadcasts in E as [E | ->].
    + split; [lia|]. intros Hc. lia.
    + auto.
Qed.

(** A batch during which nobody broadcast has changed nothing. *)
Lemma run_events_quiet es st a st' :
  run_events es st = Ret a st' ->
  broadcast_since st st' = false -> st' = st.
Proof.
  intros H Hb. apply run_events_broadcasts in H as [H1 H2].
  apply H2. unfold broadcast_since in Hb. apply Nat.ltb_ge in Hb. lia.
Qed.

Lemma wait_for_broadcast_Blocked batches :
  forall st st',
    wait_for_broadcast batches st = Blocked st' ->
    pending (world st) = batches ->
    pending (world st') = [] /\ pop_pending [] st' = pop_pending [] st.
Proof.
  induction batches as [|batch rest IH]; intros st st';
    cbn [wait_for_broadcast].
  - intros H Hp. inversion H; subst. auto.
  - destruct (run_events batch (pop_pending rest st))
      as [[] st1|v st1|st1|st1] eqn:E; try discriminate.
    + destruct (broadcast_since _ st1) eqn:Hb; [discriminate|].
      apply (run_events_quiet _ _ _ _ E) in Hb. subst st1.
      intros H _. apply IH in H as [H1 H2]; [|reflexivity].
      split; [exact H1|]. rewrite H2. reflexivity.
    + apply run_events_not_Blocked in E. contradiction.
Qed.

(** [cond_Wait] leaves the caller waiting only when the world has no event
    left and none of the events it held has broadcast; the state is then
    the one the wait started in, but for the events taken off. *)
Lemma cond_Wait_Blocked st st' :
  cond_Wait st = Blocked st' ->
  pending (world st') = [] /\ conn st' = conn st
  /\ clock (world st') = clock (world st)
  /\ ticks (world st') = ticks (world st)
  /\ engine (world st') = engine (world st)
  /\ nwrites (world st') = nwrites (world st)
  /\ trace (world st') = trace (world st).
Proof.
  intros H. apply wait_for_broadcast_Blocked in H as [H1 H2];
    [|reflexivity].
  split; [exact H1|].
  pose proof (f_equal conn H2) as Hc.
  pose proof (f_equal (fun x => clock (world x)) H2) as Hk.
  pose proof (f_equal (fun x => ticks (world x)) H2) as Ht.
  pose proof (f_equal (fun x => engine (world x)) H2) as He.
  pose proof (f_equal (fun x => nwrites (world x)) H2) as Hn.
  pose proof (f_equal (fun x => trace (world x)) H2) as Hr.
  cbn in *. auto 7.
Qed.

(** The caller resumes after a first batch that ran to its end and
    broadcast. *)
Lemma cond_Wait_woken st batch rest st1 :
  pending (world st) = batch :: rest ->
  run_events batch (pop_pending rest st) = Ret tt st1 ->
  broadcast_since (pop_pending rest st) st1 = true ->
  cond_Wait st = Ret tt st1.
Proof.
  intros Hp E Hb. unfold cond_Wait. rewrite Hp. cbn [wait_for_broadcast].
  rewrite E, Hb. reflexivity.
Qed.

Lemma broadcast_since_cons st tr :
  trace (world st) = tr ->
  forall c k t e n p,
    broadcast_since st
      (mkSt c (mkWorld k t e n (broadcast :: tr) p)) = true.
Proof.
  intros <- c k t e n p. unfold broadcast_since. cbn.
  apply Nat.leb_refl.
Qed.

Lemma read_terminal_None c now :
  read_terminal c now = None ->
  gotEOF c = false /\ libError c = None /\ destroyed c = false
  /\ closed c = false
  /\ (time.IsZero (readDeadline c) = false ->
      time.Before now (readDeadline c) = true).
Proof.
  unfold read_terminal.
  destruct (gotEOF c); [discriminate|].
  destruct (libError c); [discriminate|].
  destruct (destroyed c); [discriminate|].
  destruct (closed c); [discriminate|].
  destruct (time.IsZero (readDeadline c)); cbn.
  - intros _. repeat split. discriminate.
  - destruct (time.Before now (readDeadline c)); [|discriminate].
    intros _. repeat split.
Qed.

(** The pass of the loop after which [Read] waits: nothing was buffered,
    the caller's buffer has room, the switch reported nothing. *)
Lemma Read_loop_waits (b : list byte) st :
  let k := Nat.min (List.length b) (List.length (readBuf (conn st))) in
  let err := read_terminal (conn st) (clock (world st) (ticks (world st))) in
  negb (Z.of_nat k =? 0) || (len b =? 0) || notnil err = false ->
  b <> [] /\ readBuf (conn st) = [] /\ err = None /\ k = O.
Proof.
  cbv zeta. intros C.
  apply orb_false_elim in C as [C Ce].
  apply orb_false_elim in C as [Ck Cb].
  apply negb_false_iff, Z.eqb_eq in Ck. apply Z.eqb_neq in Cb.
  assert (Hb : b <> []) by (intros ->; apply Cb; reflexivity).
  split; [exact Hb|]. split.
  - destruct b; [contradiction|].
    destruct (readBuf (conn st)); [reflexivity | cbn in Ck; lia].
  - split; [|lia].
    destruct (read_terminal _ _); [discriminate | reflexivity].
Qed.

Lemma Read_loop_Blocked fuel :
  forall b st st',
    Read_loop fuel b st = Blocked st' ->
    let c := conn st' in
    let w := world st' in
    b <> [] /\ pending w = [] /\ readBuf c = []
    /\ gotEOF c = false /\ libError c = None /\ destroyed c = false
    /\ closed c = false
    /\ (time.IsZero (readDeadline c) = false ->
        time.Before (clock w (pred (ticks w))) (readDeadline c) = true).
Proof.
  induction fuel as [|fuel IH]; intros b st st'; [discriminate|].
  pose proof (Read_loop_step fuel b st) as E. cbv zeta in E. rewrite E.
  clear E.
  destruct (negb _ || _ || _) eqn:C; [discriminate|].
  apply (Read_loop_waits b st) in C as (Hb & Hrb & He & Hk).
  rewrite Hk. cbn [firstn skipn app]. unfold bind.
  destruct (cond_Wait _) as [[] st2|v st2|st2|st2] eqn:EW; try discriminate.
  - apply IH.
  - intros H. inversion H; subst st2. clear H.
    apply cond_Wait_Blocked in EW as (Hp & Ec & Ek & Et & _).
    apply read_terminal_None in He as (H1 & H2 & H3 & H4 & H5).
    cbv zeta. rewrite Ec, Ek, Et. cbn.
    split; [exact Hb|]. split; [exact Hp|].
    split; [rewrite Hk; exact Hrb|].
    split; [exact H1|]. split; [exact H2|]. split; [exact H3|].
    split; [exact H4|].
    intros Hz. unfold read_reads_clock.
    rewrite H1, H2, H3, H4, Hz. cbn. apply H5, Hz.
Qed.

(** X4. A [Read] is left waiting only when there is nothing more to wake
    it and nothing to return: the caller's buffer has room, the world has
    no event left, the inbound buffer is empty, no terminal condition
    holds, and a read deadline, if set, was not reached at the last
    reading of the clock. *)
Theorem Read_blocks_only_when_idle b st st' :
  Read b st = Blocked st' ->
  let c := conn st' in
  let w := world st' in
  b <> [] /\ pending w = [] /\ readBuf c = []
  /\ gotEOF c = false /\ libError c = None /\ destroyed c = false
  /\ closed c = false
  /\ (time.IsZero (readDeadline c) = false ->
      time.Before (clock w (pred (ticks w))) (readDeadline c) = true).
Proof. apply Read_loop_Blocked. Qed.

(** X4 (witness): a fresh connection and a world where nothing happens. *)
Lemma Read_blocks_only_when_idle_witness :
  exists st',
    Read [x00] start = Blocked st'
    /\ pending (world st') = [] /\ readBuf (conn st') = [].
Proof.
  eexists. split; [reflexivity|].
  destruct (Read_blocks_only_when_idle [x00] start _ eq_refl)
    as (_ & H1 & H2 & _).
  split; [exact H1 | exact H2].
Defined.

(** Any fuel above the number of waits left gives the same run. *)
Lemma Read_loop_fuel f1 :
  forall f2 b st,
    (waits st < f1)%nat -> (waits st < f2)%nat ->
    Read_loop f1 b st = Read_loop f2 b st.
Proof.
  induction f1 as [|f1 IH]; intros f2 b st H1 H2; [lia|].
  destruct f2 as [|f2]; [lia|].
  pose proof (Read_loop_step f1 b st) as E1. cbv zeta in E1. rewrite E1.
  pose proof (Read_loop_step f2 b st) as E2. cbv zeta in E2. rewrite E2.
  clear E1 E2.
  destruct (negb _ || _ || _); [reflexivity|].
  unfold bind.
  match goal with |- context [cond_Wait ?x] => set (st1 := x) end.
  assert (Hw : waits st1 = waits st) by reflexivity.
  destruct (cond_Wait st1) as [[] st2|v st2|st2|st2] eqn:EW; try reflexivity.
  apply cond_Wait_waits in EW. apply IH; lia.
Qed.

Lemma Read_wait_then_retry b st :
  b <> [] ->
  readBuf (conn st) = [] ->
  read_terminal (conn st) (clock (world st) (ticks (world st))) = None ->
  Read b st
  = (cond_Wait ;; Read b) (count_read 0 (after_readNoWait b st)).
Proof.
  intros Hb Hrb He. unfold Read at 1.
  pose proof (Read_loop_step (waits st) b st) as E. cbv zeta in E.
  rewrite E. clear E. rewrite Hrb, He.
  rewrite Nat.min_0_r. cbn [firstn skipn app Z.of_nat Z.eqb negb notnil orb].
  replace (len b =? 0) with false
    by (symmetry; apply Z.eqb_neq; destruct b; [contradiction | cbn; lia]).
  unfold bind.
  set (st1 := count_read 0 (after_readNoWait b st)).
  assert (Hw : waits st1 = waits st) by reflexivity.
  destruct (cond_Wait st1) as [[] st2|v st2|st2|st2] eqn:EW; try reflexivity.
  apply cond_Wait_waits in EW. unfold Read.
  apply Read_loop_fuel; lia.
Qed.

(** X5. A [Read] that finds nothing to return waits for the next batch of
    events and then starts over: it is the wait followed by a whole new
    [Read], from the state its first pass left. *)
Theorem Read_retries_after_wait b st :
  b <> [] ->
  readBuf (conn st) = [] ->
  read_terminal (conn st) (clock (world st) (ticks (world st))) = None ->
  Read b st
  = (cond_Wait ;; Read b) (count_read 0 (after_readNoWait b st)).
Proof. apply Read_wait_then_retry. Qed.

(** X5 (witness): a fresh connection; end of stream arrives while the
    reader waits. *)
Lemma Read_retries_after_wait_witness :
  let st := mkSt fresh (mkWorld (fun _ => 1) O (fun _ _ => 0) O [] [[on_eof]]) in
  Read [x00] st
  = (cond_Wait ;; Read [x00]) (count_read 0 (after_readNoWait [x00] st))
  /\ exists st', Read [x00] st = Ret ([x00], 0, Some io_EOF) st'.
Proof.
  intros st. split.
  - apply (Read_retries_after_wait [x00] st);
      [discriminate | reflexivity | reflexivity].
  - eexists. reflexivity.
Defined.

Lemma Read_drained_terminal b st e :
  readBuf (conn st) = [] ->
  read_terminal (conn st) (clock (world st) (ticks (world st))) = Some e ->
  exists st',
    Read b st = Ret (b, 0, Some e) st'
    /\ pending (world st') = pending (world st).
Proof.
  intros Hrb He. exists (count_read 0 (after_readNoWait b st)).
  split; [|reflexivity].
  rewrite (Read_at_once b st) by (right; right; rewrite He; discriminate).
  rewrite Hrb, He, Nat.min_0_r. reflexivity.
Qed.

Lemma idle_read_terminal c now : idle c -> read_terminal c now = None.
Proof.
  intros (_ & H1 & H2 & H3 & H4 & H5). unfold read_terminal.
  now rewrite H1, H2, H3, H4, H5.
Qed.

(** The first pass of a [Read] on an idle connection only adds zero to
    the read counter. *)
Lemma idle_first_pass b st :
  idle (conn st) -> count_read 0 (after_readNoWait b st) = count_read 0 st.
Proof.
  destruct st as [c w]. destruct c, w. unfold idle. cbn.
  intros (-> & -> & -> & -> & -> & ->).
  unfold count_read, after_readNoWait, read_reads_clock. cbn.
  rewrite Nat.min_0_r. reflexivity.
Qed.

(** An idle [Read] with a batch of events ahead that runs to its end and
    broadcasts: the [Read] wakes and starts over. *)
Lemma Read_idle_woken b st batch rest st2 :
  idle (conn st) -> b <> [] ->
  pending (world st) = batch :: rest ->
  let st1 := pop_pending rest (count_read 0 st) in
  run_events batch st1 = Ret tt st2 ->
  broadcast_since st1 st2 = true ->
  Read b st = Read b st2.
Proof.
  intros Hi Hb Hp st1 E Hw.
  rewrite Read_wait_then_retry;
    [| exact Hb | apply Hi | apply idle_read_terminal, Hi].
  rewrite (idle_first_pass b st Hi).
  unfold bind.
  rewrite (cond_Wait_woken _ batch rest st2); [reflexivity | exact Hp | |];
    assumption.
Qed.

Ltac run_batch :=
  unfold_straight; cbn [run_events run_event]; unfold_straight; cbn;
  repeat match goal with H : _ = _ |- _ => rewrite H end; cbn;
  reflexivity.

Ltac was_broadcast := unfold broadcast_since; cbn; apply Nat.leb_refl.

(** X6. A [Read] waiting on an idle connection is woken by the broadcast
    of the next event and returns what that event calls for, with no byte:
    end of stream after on-eof, the engine's error after on-error,
    "destroyed" after on-destroyed, "closed" after a [Close] from another
    thread. *)
Theorem Read_woken_by_event b st rest :
  idle (conn st) -> b <> [] ->
  (pending (world st) = [on_eof] :: rest ->
   exists st', Read b st = Ret (b, 0, Some io_EOF) st'
               /\ pending (world st') = rest)
  /\ (forall codeName,
        pending (world st) = [on_error codeName] :: rest ->
        exists st', Read b st = Ret (b, 0, Some (errors_New codeName)) st'
                    /\ pending (world st') = rest)
  /\ (pending (world st) = [on_destroyed] :: rest ->
      exists st', Read b st = Ret (b, 0, Some (errors_New "destroyed")) st'
                  /\ pending (world st') = rest)
  /\ (pending (world st) = [call_Close] :: rest ->
      exists st', Read b st = Ret (b, 0, Some (errors_New "closed")) st'
                  /\ pending (world st') = rest).
Proof.
  intros Hi Hb.
  pose proof Hi as (Hrb & H1 & H2 & H3 & H4 & H5).
  repeat split; intros;
    match goal with
    | Hp : pending (world st) = ?batch :: rest |- _ =>
        eassert (E : run_events batch (pop_pending rest (count_read 0 st))
                     = Ret tt _) by run_batch;
        rewrite (Read_idle_woken b st batch rest _ Hi Hb Hp E)
          by was_broadcast
    end;
    (apply Read_drained_terminal;
     [ exact Hrb
     | unfold read_terminal; cbn; rewrite ?H1, ?H2, ?H3, ?H4; reflexivity ]).
Qed.

(** X6 (witness): a fresh connection, closed by another thread while the
    reader waits. *)
Lemma Read_woken_by_event_witness :
  let st := mkSt fresh
              (mkWorld (fun _ => 1) O (fun _ _ => 0) O [] [[call_Close]]) in
  idle (conn st)
  /\ exists st', Read [x00] st = Ret ([x00], 0, Some (errors_New "closed")) st'.
Proof.
  intros st.
  assert (Hi : idle (conn st)) by (repeat split).
  split; [exact Hi|].
  destruct (Read_woken_by_event [x00] st [] Hi) as (_ & _ & _ & H);
    [discriminate|].
  destruct (H eq_refl) as (st' & E & _). exists st'. exact E.
Defined.

(** X7. A read deadline set by another thread while a [Read] waits on an
    idle connection wakes that [Read] by its broadcast; if the deadline is
    reached at the reading of the clock the [Read] then makes, it returns
    [(0, deadline exceeded)]. *)
Theorem Read_woken_by_deadline b st t rest :
  idle (conn st) -> b <> [] ->
  pending (world st) = [call_SetReadDeadline t] :: rest ->
  time.IsZero t = false ->
  time.Before (clock (world st) (S (ticks (world st)))) t = false ->
  exists st',
    Read b st = Ret (b, 0, Some errDeadlineExceeded) st'
    /\ pending (world st') = rest.
Proof.
  intros Hi Hb Hp Hz Hd.
  pose proof Hi as (Hrb & H1 & H2 & H3 & H4 & H5).
  assert (Hc : read_reads_clock (conn st) = false).
  { unfold read_reads_clock. rewrite H5. cbn. now rewrite !andb_false_r. }
  eassert (E : run_events [call_SetReadDeadline t]
                 (pop_pending rest (count_read 0 st))
               = Ret tt _).
  { unfold_straight; cbn [run_events run_event]; unfold_straight; cbn.
    rewrite Hz. cbn. reflexivity. }
  rewrite (Read_idle_woken b st _ rest _ Hi Hb Hp E) by was_broadcast.
  apply Read_drained_terminal.
  - exact Hrb.
  - unfold read_terminal. cbn. rewrite H1, H2, H3, H4, Hz. cbn.
    rewrite Hd. reflexivity.
Qed.

(** X7 (witness): the clock stands at 1000 and the deadline is set to 5. *)
Lemma Read_woken_by_deadline_witness :
  let st := mkSt fresh
              (mkWorld (fun _ => 1000) O (fun _ _ => 0) O []
                 [[call_SetReadDeadline 5]]) in
  exists st', Read [x00] st = Ret ([x00], 0, Some errDeadlineExceeded) st'.
Proof.
  intros st.
  destruct (Read_woken_by_deadline [x00] st 5 [])
    as (st' & E & _);
    [repeat split | discriminate | reflexivity | reflexivity | reflexivity |].
  exists st'. exact E.
Defined.

(** ** One pass of the write loop *)

Lemma after_writeErr_engine st :
  engine (world (after_writeErr st)) = engine (world st)
  /\ nwrites (world (after_writeErr st)) = nwrites (world st)
  /\ trace (world (after_writeErr st)) = trace (world st)
  /\ pending (world (after_writeErr st)) = pending (world st)
  /\ conn (after_writeErr st) = conn st.
Proof.
  unfold after_writeErr. destruct (write_reads_clock (conn st));
    repeat split.
Qed.

Lemma writeNoWait_run b st :
  let c := conn st in
  let w := world st in
  let r := engine w (nwrites w) b in
  writeNoWait b st
  = match write_terminal c (clock w (ticks w)) with
    | Some e => Ret (0, Some e) (after_writeErr st)
    | None =>
        match b with
        | [] => Panic (panic_index 0 0) (after_writeErr st)
        | _ :: _ =>
            if r <? 0 then Panic (panic_int r) (after_utp_write b st)
            else Ret (r, None) (after_utp_write b st)
        end
    end.
Proof.
  destruct st as [c w]. destruct c, w.
  unfold after_utp_write, after_writeErr, write_terminal, write_reads_clock.
  unfold_straight. cbn.
  split_cases; cbn in *; try discriminate; reflexivity.
Qed.

(** [Write_loop] unfolded once. *)
Lemma Write_loop_step fuel b n st :
  let c := conn st in
  let w := world st in
  let r := engine w (nwrites w) b in
  Write_loop (S fuel) b n st
  = if len b =? 0 then Ret (n, None) st
    else
      match write_terminal c (clock w (ticks w)) with
      | Some e => Ret (n, Some e) (after_writeErr st)
      | None =>
          if r <? 0 then Panic (panic_int r) (after_utp_write b st)
          else if len b <? r
          then Panic (panic_slice_bounds r (len b)) (after_utp_write b st)
          else if r =? 0
          then (cond_Wait ;; Write_loop fuel b n) (after_utp_write b st)
          else Write_loop fuel (skipn (Z.to_nat r) b) (n + r)
                 (after_utp_write b st)
      end.
Proof.
  cbv zeta. cbn [Write_loop].
  destruct (len b =? 0) eqn:Hl; [reflexivity|].
  apply Z.eqb_neq in Hl.
  unfold bind at 1.
  pose proof (writeNoWait_run b st) as E. cbv zeta in E. rewrite E. clear E.
  destruct (write_terminal _ _) as [e|].
  - unfold bind at 1, slice_from.
    replace ((0 <? 0) || (len b <? 0)) with false
      by (symmetry; apply orb_false_intro;
          [reflexivity | apply Z.ltb_ge; unfold len; lia]).
    cbn. now rewrite Z.add_0_r.
  - destruct b as [|x b0]; [cbn in Hl; lia|].
    set (b := x :: b0) in *.
    set (r := engine (world st) (nwrites (world st)) b).
    destruct (r <? 0) eqn:Hr; [reflexivity|].
    unfold bind at 1, slice_from. rewrite Hr. cbn [orb].
    destruct (len b <? r); [reflexivity|].
    unfold ret at 1.
    destruct (r =? 0) eqn:Hz; cbn [negb]; [|reflexivity].
    apply Z.eqb_eq in Hz. rewrite Hz. cbn [Z.to_nat skipn].
    now rewrite Z.add_0_r.
Qed.

Lemma write_terminal_None c now :
  write_terminal c now = None ->
  libError c = None /\ closed c = false /\ destroyed c = false
  /\ (time.IsZero (writeDeadline c) = false ->
      time.Before now (writeDeadline c) = true).
Proof.
  unfold write_terminal.
  destruct (libError c); [discriminate|].
  destruct (closed c); [discriminate|].
  destruct (destroyed c); [discriminate|].
  destruct (time.IsZero (writeDeadline c)); cbn.
  - intros _. repeat split. discriminate.
  - destruct (time.Before now (writeDeadline c)); [|discriminate].
    intros _. repeat split.
Qed.

Lemma Write_loop_Blocked fuel :
  forall b n st st',
    Write_loop fuel b n st = Blocked st' ->
    let c := conn st' in
    let w := world st' in
    pending w = []
    /\ libError c = None /\ closed c = false /\ destroyed c = false
    /\ (exists buf tr, trace w = utp_write (s c) buf 0 :: tr /\ buf <> [])
    /\ (time.IsZero (writeDeadline c) = false ->
        time.Before (clock w (pred (ticks w))) (writeDeadline c) = true).
Proof.
  induction fuel as [|fuel IH]; intros b n st st'; [discriminate|].
  pose proof (Write_loop_step fuel b n st) as E. cbv zeta in E. rewrite E.
  clear E.
  destruct (len b =? 0) eqn:Hl; [discriminate|].
  destruct (write_terminal _ _) as [e|] eqn:HT; [discriminate|].
  set (r := engine (world st) (nwrites (world st)) b).
  destruct (r <? 0); [discriminate|].
  destruct (len b <? r); [discriminate|].
  destruct (r =? 0) eqn:Hz; [|apply IH].
  apply Z.eqb_eq in Hz. unfold bind.
  destruct (cond_Wait _) as [[] st2|v st2|st2|st2] eqn:EW; try discriminate.
  - apply IH.
  - intros H. inversion H; subst st2. clear H.
    apply cond_Wait_Blocked in EW as (Hp & Wc & Wk & Wt & _ & _ & Wr).
    apply write_terminal_None in HT as (H1 & H2 & H3 & H4).
    destruct (after_writeErr_engine st) as (Ee & En & Et & Epd & Ec).
    cbv zeta. rewrite Wc, Wk, Wt, Wr. cbn.
    split; [exact Hp|]. split; [exact H1|]. split; [exact H2|].
    split; [exact H3|]. split.
    + exists b, (trace (world (after_writeErr st))).
      rewrite Ee, En. fold r. rewrite Hz. split; [reflexivity|].
      intros ->. discriminate Hl.
    + intros Hd. unfold after_writeErr, write_reads_clock.
      rewrite H1, H2, H3, Hd. cbn. apply H4, Hd.
Qed.

(** X8. A [Write] is left waiting only under back-pressure with nothing
    more to wake it: its last effect is a call of [utp_write] that the
    engine answered with 0, the world has no event left, no terminal
    condition holds, and a write deadline, if set, was not reached at the
    last reading of the clock. *)
Theorem Write_blocks_only_on_backpressure b st st' :
  Write b st = Blocked st' ->
  let c := conn st' in
  let w := world st' in
  pending w = []
  /\ libError c = None /\ closed c = false /\ destroyed c = false
  /\ (exists buf tr, trace w = utp_write (s c) buf 0 :: tr /\ buf <> [])
  /\ (time.IsZero (writeDeadline c) = false ->
      time.Before (clock w (pred (ticks w))) (writeDeadline c) = true).
Proof.
  unfold Write, bind at 1.
  destruct (Write_loop _ b 0 st) as [[n err] st1|v st1|st1|st1] eqn:E;
    try discriminate.
  intros H. inversion H; subst st1. clear H.
  exact (Write_loop_Blocked _ _ _ _ _ E).
Qed.

(** X8 (witness): an engine that accepts nothing, a world where nothing
    happens. *)
Lemma Write_blocks_only_on_backpressure_witness :
  exists st',
    Write [x01] start = Blocked st'
    /\ pending (world st') = []
    /\ trace (world st') = [utp_write (Some 1%nat) [x01] 0].
Proof.
  eexists. split; [reflexivity|].
  destruct (Write_blocks_only_on_backpressure [x01] start _ eq_refl)
    as (H1 & _).
  split; [exact H1 | reflexivity].
Defined.

(** A [Write] of a non-empty buffer that meets a terminal condition at its
    first pass, with the state it leaves. *)
Lemma Write_stops_at_once b st e :
  b <> [] ->
  write_terminal (conn st) (clock (world st) (ticks (world st))) = Some e ->
  Write b st = Ret (0, Some e) (count_written 0 (after_writeErr st)).
Proof.
  intros Hb HT. unfold Write, bind at 1.
  pose proof (Write_loop_step (List.length b + waits st) b 0 st) as E.
  cbv zeta in E. rewrite E. clear E. rewrite HT.
  replace (len b =? 0) with false
    by (symmetry; apply Z.eqb_neq; destruct b; [contradiction | cbn; lia]).
  reflexivity.
Qed.

(** Any fuel above the bytes and waits left gives the same run. *)
Lemma Write_loop_fuel f1 :
  forall f2 b n st,
    (List.length b + waits st < f1)%nat ->
    (List.length b + waits st < f2)%nat ->
    Write_loop f1 b n st = Write_loop f2 b n st.
Proof.
  induction f1 as [|f1 IH]; intros f2 b n st H1 H2; [lia|].
  destruct f2 as [|f2]; [lia|].
  pose proof (Write_loop_step f1 b n st) as E1. cbv zeta in E1. rewrite E1.
  pose proof (Write_loop_step f2 b n st) as E2. cbv zeta in E2. rewrite E2.
  clear E1 E2.
  destruct (len b =? 0) eqn:Hl; [reflexivity|].
  destruct (write_terminal _ _); [reflexivity|].
  set (r := engine (world st) (nwrites (world st)) b).
  destruct (r <? 0) eqn:Hr; [reflexivity|]. apply Z.ltb_ge in Hr.
  destruct (len b <? r) eqn:Hs; [reflexivity|]. apply Z.ltb_ge in Hs.
  set (st1 := after_utp_write b st).
  assert (Hw : waits st1 = waits st).
  { unfold waits, st1. cbn.
    now destruct (after_writeErr_engine st) as (_ & _ & _ & -> & _). }
  destruct (r =? 0) eqn:Hz.
  - unfold bind.
    destruct (cond_Wait st1) as [[] st2|v st2|st2|st2] eqn:EW;
      try reflexivity.
    apply cond_Wait_waits in EW. apply IH; lia.
  - apply Z.eqb_neq in Hz.
    pose proof (skipn_shorter b r). apply IH; lia.
Qed.

Lemma Write_wait_then_retry b st :
  b <> [] ->
  write_terminal (conn st) (clock (world st) (ticks (world st))) = None ->
  engine (world st) (nwrites (world st)) b = 0 ->
  Write b st = (cond_Wait ;; Write b) (after_utp_write b st).
Proof.
  intros Hb HT Hr. unfold Write at 1. unfold bind at 1.
  pose proof (Write_loop_step (List.length b + waits st) b 0 st) as E.
  cbv zeta in E. rewrite E. clear E. rewrite HT, Hr.
  replace (len b =? 0) with false
    by (symmetry; apply Z.eqb_neq; destruct b; [contradiction | cbn; lia]).
  replace (len b <? 0) with false
    by (symmetry; apply Z.ltb_ge; unfold len; lia).
  cbn [Z.ltb Z.compare Z.eqb].
  set (st1 := after_utp_write b st).
  assert (Hw : waits st1 = waits st).
  { unfold waits, st1. cbn.
    now destruct (after_writeErr_engine st) as (_ & _ & _ & -> & _). }
  unfold bind.
  destruct (cond_Wait st1) as [[] st2|v st2|st2|st2] eqn:EW; try reflexivity.
  apply cond_Wait_waits in EW. unfold Write, bind.
  rewrite (Write_loop_fuel (List.length b + waits st)
             (S (List.length b + waits st2)) b 0 st2) by lia.
  reflexivity.
Qed.

(** X9. Under back-pressure (no terminal condition, the engine answers 0)
    a [Write] of a non-empty buffer has made one call of [utp_write], waits
    for the next batch of events and then starts over as a whole new
    [Write] of the same buffer. *)
Theorem Write_retries_after_backpressure b st :
  b <> [] ->
  write_terminal (conn st) (clock (world st) (ticks (world st))) = None ->
  engine (world st) (nwrites (world st)) b = 0 ->
  Write b st = (cond_Wait ;; Write b) (after_utp_write b st).
Proof. apply Write_wait_then_retry. Qed.

(** X9 (witness): the engine accepts nothing; ECONNRESET arrives while the
    writer waits. *)
Lemma Write_retries_after_backpressure_witness :
  let st := mkSt fresh
              (mkWorld (fun _ => 1) O (fun _ _ => 0) O []
                 [[on_error "ECONNRESET"]]) in
  Write [x01] st = (cond_Wait ;; Write [x01]) (after_utp_write [x01] st)
  /\ exists st',
      Write [x01] st = Ret (0, Some (errors_New "ECONNRESET")) st'.
Proof.
  intros st. split.
  - apply (Write_retries_after_backpressure [x01] st);
      [discriminate | reflexivity | reflexivity].
  - eexists. reflexivity.
Defined.

Lemma writable_write_terminal c now : writable c -> write_terminal c now = None.
Proof.
  intros (H1 & H2 & H3 & H4). unfold write_terminal.
  now rewrite H1, H2, H3, H4.
Qed.

Lemma writable_after_writeErr st : writable (conn st) -> after_writeErr st = st.
Proof.
  intros (H1 & H2 & H3 & H4). unfold after_writeErr, write_reads_clock.
  now rewrite H1, H2, H3, H4.
Qed.

(** A writable connection under back-pressure with a batch of events
    ahead that runs to its end and broadcasts: the [Write] wakes and
    starts over. *)
Lemma Write_backpressure_woken b st batch rest st2 :
  writable (conn st) -> b <> [] ->
  engine (world st) (nwrites (world st)) b = 0 ->
  pending (world st) = batch :: rest ->
  let st1 := pop_pending rest (after_utp_write b st) in
  run_events batch st1 = Ret tt st2 ->
  broadcast_since st1 st2 = true ->
  Write b st = Write b st2.
Proof.
  intros Hw Hb Hr Hp st1 E Hbc.
  rewrite Write_wait_then_retry;
    [| exact Hb | apply writable_write_terminal, Hw | exact Hr].
  unfold bind.
  rewrite (cond_Wait_woken _ batch rest st2); [reflexivity | | |];
    try assumption.
  unfold after_utp_write. rewrite (writable_after_writeErr st Hw).
  exact Hp.
Qed.

(** X10. A [Write] waiting under back-pressure on a writable connection is
    woken by the broadcast of the next event and returns what that event
    calls for, with the
    count 0: the engine's error after on-error, "closed" after a [Close]
    from another thread, "destroyed" after on-destroyed. The engine has
    accepted no byte in the meantime. *)
Theorem Write_woken_by_event b st rest :
  writable (conn st) -> b <> [] ->
  engine (world st) (nwrites (world st)) b = 0 ->
  (forall codeName,
      pending (world st) = [on_error codeName] :: rest ->
      exists st',
        Write b st = Ret (0, Some (errors_New codeName)) st'
        /\ pending (world st') = rest
        /\ sum_accepted (trace (world st'))
           = sum_accepted (trace (world st)))
  /\ (pending (world st) = [call_Close] :: rest ->
      exists st',
        Write b st = Ret (0, Some (errors_New "closed")) st'
        /\ pending (world st') = rest
        /\ sum_accepted (trace (world st'))
           = sum_accepted (trace (world st)))
  /\ (pending (world st) = [on_destroyed] :: rest ->
      exists st',
        Write b st = Ret (0, Some (errors_New "destroyed")) st'
        /\ pending (world st') = rest
        /\ sum_accepted (trace (world st'))
           = sum_accepted (trace (world st))).
Proof.
  intros Hw Hb Hr.
  pose proof Hw as (H1 & H2 & H3 & H4).
  repeat split; intros;
    match goal with
    | Hp : pending (world st) = ?batch :: rest |- _ =>
        eassert (E : run_events batch
                       (pop_pending rest (after_utp_write b st))
                     = Ret tt _)
          by (unfold after_utp_write;
              rewrite (writable_after_writeErr st Hw); run_batch);
        rewrite (Write_backpressure_woken b st batch rest _ Hw Hb Hr Hp E)
          by (unfold after_utp_write;
              rewrite (writable_after_writeErr st Hw); was_broadcast)
    end;
    (eexists; split;
     [ apply Write_stops_at_once;
       [ exact Hb
       | unfold write_terminal; cbn; rewrite ?H1, ?H2, ?H3; reflexivity ]
     | unfold after_writeErr, write_reads_clock; cbn;
       rewrite ?H1, ?H2, ?H3; cbn; rewrite ?Hr; cbn; split; reflexivity ]).
Qed.

(** X10 (witness): the engine accepts nothing; another thread closes the
    connection while the writer waits. *)
Lemma Write_woken_by_event_witness :
  let st := mkSt fresh
              (mkWorld (fun _ => 1) O (fun _ _ => 0) O [] [[call_Close]]) in
  writable (conn st)
  /\ exists st', Write [x01] st = Ret (0, Some (errors_New "closed")) st'.
Proof.
  intros st.
  assert (Hw : writable (conn st)) by (repeat split).
  split; [exact Hw|].
  destruct (Write_woken_by_event [x01] st [] Hw) as (_ & H & _);
    [discriminate | reflexivity |].
  destruct (H eq_refl) as (st' & E & _). exists st'. exact E.
Defined.

(** X11. When no terminal condition holds and the engine takes the whole
    buffer at the first call, [Write] returns [(len(b), nil)] after that
    single call, without waiting and with the write counter advanced by
    [len(b)]. *)
Theorem Write_all_at_once b st :
  b <> [] ->
  write_terminal (conn st) (clock (world st) (ticks (world st))) = None ->
  engine (world st) (nwrites (world st)) b = len b ->
  Write b st
  = Ret (len b, None) (count_written (len b) (after_utp_write b st)).
Proof.
  intros Hb HT Hr.
  assert (Hpos : 0 < len b) by (destruct b; [contradiction | cbn; lia]).
  unfold Write, bind at 1.
  pose proof (Write_loop_step (List.length b + waits st) b 0 st) as E.
  cbv zeta in E. rewrite E. clear E. rewrite HT, Hr.
  replace (len b =? 0) with false by (symmetry; apply Z.eqb_neq; lia).
  replace (len b <? 0) with false by (symmetry; apply Z.ltb_ge; lia).
  rewrite Z.ltb_irrefl.
  destruct (List.length b + waits st)%nat as [|fuel] eqn:Ef.
  { destruct b; [contradiction | cbn in Ef; lia]. }
  cbn [Write_loop]. unfold len at 1.
  rewrite length_skipn. unfold len. rewrite Nat2Z.id, Nat.sub_diag.
  reflexivity.
Qed.

(** X11 (witness): an engine that takes everything it is offered. *)
Lemma Write_all_at_once_witness :
  let st := mkSt fresh (mkWorld (fun _ => 1) O (fun _ b => len b) O [] []) in
  exists st',
    Write [x01; x02; x03] st = Ret (3, None) st'
    /\ numBytesWritten (conn st') = 3
    /\ trace (world st') = [utp_write (Some 1%nat) [x01; x02; x03] 3].
Proof.
  intros st. eexists. split.
  - apply (Write_all_at_once [x01; x02; x03] st);
      [discriminate | reflexivity | reflexivity].
  - split; reflexivity.
Defined.

(** ** Terminal conditions are permanent *)

Lemma read_over_stable c c' : stable c c' -> read_over c -> read_over c'.
Proof.
  intros [Hc He Hd Hl] [H | [H | [H | H]]].
  - left. auto.
  - right. left. destruct (libError c) as [e|] eqn:E; [|contradiction].
    rewrite (Hl e eq_refl). discriminate.
  - right. right. left. auto.
  - right. right. right. auto.
Qed.

Lemma write_over_stable c c' : stable c c' -> write_over c -> write_over c'.
Proof.
  intros [Hc He Hd Hl] [H | [H | H]].
  - left. destruct (libError c) as [e|] eqn:E; [|contradiction].
    rewrite (Hl e eq_refl). discriminate.
  - right. left. auto.
  - right. right. auto.
Qed.

Lemma read_over_terminal c now : read_over c -> read_terminal c now <> None.
Proof.
  unfold read_terminal. intros [H | [H | [H | H]]].
  - rewrite H. discriminate.
  - destruct (gotEOF c); [discriminate|].
    destruct (libError c); [discriminate | contradiction].
  - destruct (gotEOF c); [discriminate|].
    destruct (libError c); [discriminate|]. rewrite H. discriminate.
  - destruct (gotEOF c); [discriminate|].
    destruct (libError c); [discriminate|].
    destruct (destroyed c); [discriminate|]. rewrite H. discriminate.
Qed.

Lemma write_over_terminal c now : write_over c -> write_terminal c now <> None.
Proof.
  unfold write_terminal. intros [H | [H | H]].
  - destruct (libError c); [discriminate | contradiction].
  - destruct (libError c); [discriminate|]. rewrite H. discriminate.
  - destruct (libError c); [discriminate|].
    destruct (closed c); [discriminate|]. rewrite H. discriminate.
Qed.

(** X12. Terminal conditions are permanent. Once end of stream, a latched
    error, destroyed or closed holds, then after any run of operations and
    events every [Read] returns at once with an error (end of stream, if
    that was signalled), taking no event off the world; once a latched
    error, closed or destroyed holds, every [Write] of a non-empty buffer
    returns [(0, err)] at once and never reaches the engine. *)
Theorem terminal_conditions_are_permanent os st st2 :
  run_ops os st = Ret tt st2 ->
  (read_over (conn st) ->
   forall b, exists b' n e st3,
     Read b st2 = Ret (b', n, Some e) st3
     /\ pending (world st3) = pending (world st2))
  /\ (gotEOF (conn st) = true ->
      forall b, exists b' n st3, Read b st2 = Ret (b', n, Some io_EOF) st3)
  /\ (write_over (conn st) ->
      forall b, b <> [] ->
        exists e st3,
          Write b st2 = Ret (0, Some e) st3
          /\ trace (world st3) = trace (world st2)
          /\ pending (world st3) = pending (world st2)).
Proof.
  intros Hrun.
  pose proof (Rstable_run_ops os st) as HS. rewrite Hrun in HS.
  cbn [final] in HS. unfold Rstable in HS.
  split; [|split].
  - intros Ho b.
    pose proof (read_over_terminal (conn st2)
                  (clock (world st2) (ticks (world st2)))
                  (read_over_stable _ _ HS Ho)) as HT.
    destruct (read_terminal _ _) as [e|] eqn:E; [|contradiction].
    do 4 eexists. split.
    + rewrite (Read_at_once b st2) by (right; right; rewrite E; discriminate).
      rewrite E. reflexivity.
    + reflexivity.
  - intros He b. apply Read_EOF_whenever_signalled.
    apply (stable_gotEOF _ _ HS He).
  - intros Ho b Hb.
    pose proof (write_over_terminal (conn st2)
                  (clock (world st2) (ticks (world st2)))
                  (write_over_stable _ _ HS Ho)) as HT.
    destruct (write_terminal _ _) as [e|] eqn:E; [|contradiction].
    exists e. eexists. split; [apply (Write_stops_at_once b st2 e Hb E)|].
    destruct (after_writeErr_engine st2) as (_ & _ & Et & Ep & _).
    split; [exact Et | exact Ep].
Qed.

(** X12 (witness): a connection is closed, then ECONNRESET arrives and the
    read deadline is changed; reads and writes still fail. *)
Lemma terminal_conditions_are_permanent_witness :
  let os := [op_event (on_error "ECONNRESET");
             op_event (call_SetReadDeadline 0)] in
  let st := mkSt (set_closed true fresh) still in
  let st2 := final (run_ops os st) in
  run_ops os st = Ret tt st2
  /\ (exists b' n e st3, Read [x00] st2 = Ret (b', n, Some e) st3)
  /\ (exists e st3, Write [x01] st2 = Ret (0, Some e) st3).
Proof.
  intros os st st2.
  assert (Hrun : run_ops os st = Ret tt st2) by reflexivity.
  split; [exact Hrun|].
  destruct (terminal_conditions_are_permanent os st st2 Hrun)
    as (HR & _ & HW).
  split.
  - destruct (HR (or_intror (or_intror (or_intror eq_refl))) [x00])
      as (b' & n & e & st3 & E & _).
    exists b', n, e, st3. exact E.
  - destruct (HW (or_intror (or_introl eq_refl)) [x01])
      as (e & st3 & E & _); [discriminate|].
    exists e, st3. exact E.
Defined.

(** ** The engine handle *)

Lemma Rhandle_refl st : Rhandle st st.
Proof.
  intros Hc. split; [exact Hc|]. split; [left; reflexivity|].
  exists []. split; [reflexivity | constructor].
Qed.

Lemma Rhandle_trans st1 st2 st3 :
  Rhandle st1 st2 -> Rhandle st2 st3 -> Rhandle st1 st3.
Proof.
  intros H12 H23 Hc.
  destruct (H12 Hc) as (Hc2 & Hs2 & n1 & T1 & F1).
  destruct (H23 Hc2) as (Hc3 & Hs3 & n2 & T2 & F2).
  split; [exact Hc3|]. split.
  - destruct Hs3 as [Hs3 | Hs3]; [|right; exact Hs3].
    rewrite Hs3. exact Hs2.
  - exists (n2 ++ n1). split.
    + now rewrite T2, T1, app_assoc.
    + apply Forall_app. auto.
Qed.

(** A live handle where the connection is neither closed nor destroyed. *)
Lemma consistent_live c :
  handle_consistent c -> closed c = false -> destroyed c = false ->
  s c <> None.
Proof.
  intros Hc H1 H2 Hs. apply Hc in Hs. rewrite H1, H2 in Hs. discriminate.
Qed.

Ltac handle_new :=
  match goal with
  | |- exists new, ?a :: ?b :: ?c :: ?d :: ?t = new ++ ?t /\ _ =>
      exists [a; b; c; d]
  | |- exists new, ?a :: ?b :: ?c :: ?t = new ++ ?t /\ _ => exists [a; b; c]
  | |- exists new, ?a :: ?b :: ?t = new ++ ?t /\ _ => exists [a; b]
  | |- exists new, ?a :: ?t = new ++ ?t /\ _ => exists [a]
  | |- exists new, ?t = new ++ ?t /\ _ => exists []
  end.

Ltac handle_effect c Hc :=
  cbn;
  match goal with
  | |- True => exact I
  | |- match s c with _ => _ end =>
      let E := fresh "E" in
      destruct (s c) eqn:E;
      [ exact I
      | exfalso; apply (consistent_live c Hc); assumption ]
  end.

Ltac handle_goal c :=
  unfold Rhandle; cbn;
  let Hc := fresh "Hc" in
  intros Hc;
  split;
  [ first
      [ exact Hc
      | unfold handle_consistent; cbn; rewrite ?orb_true_r;
        split; intros _; reflexivity
      | unfold handle_consistent in *; cbn; split; intros _;
        [ reflexivity
        | apply Hc;
          repeat match goal with H : _ = _ |- _ => rewrite H end;
          rewrite ?orb_true_r; reflexivity ] ]
  | split;
    [ first [left; reflexivity | right; reflexivity]
    | handle_new; split; [reflexivity|];
      repeat (apply Forall_cons; [handle_effect c Hc|]); apply Forall_nil ] ].

Lemma Rhandle_event e : preserves Rhandle (run_event e).
Proof.
  intros [c w]. destruct e; straight;
    repeat match goal with
      | H : negb _ = true |- _ => apply negb_true_iff in H
      | H : negb _ = false |- _ => apply negb_false_iff in H
      end;
    handle_goal c.
Qed.

Lemma Rhandle_readNoWait b : preserves Rhandle (readNoWait b).
Proof. intros [c w]. straight; handle_goal c. Qed.

Lemma Rhandle_writeNoWait b : preserves Rhandle (writeNoWait b).
Proof. intros [c w]. straight; handle_goal c. Qed.

Lemma Rhandle_run_op o : preserves Rhandle (run_op o).
Proof.
  apply preserves_run_op.
  - exact Rhandle_refl.
  - exact Rhandle_trans.
  - intros c w rest. handle_goal c.
  - exact Rhandle_event.
  - exact Rhandle_writeNoWait.
  - intros n [c w]. straight. handle_goal c.
  - exact Rhandle_readNoWait.
  - intros n [c w]. straight. handle_goal c.
Qed.

Lemma Rhandle_run_ops os : preserves Rhandle (run_ops os).
Proof.
  induction os as [|o os IH]; cbn [run_ops].
  - intros st. apply Rhandle_refl.
  - apply (preserves_bind Rhandle Rhandle_trans);
      [apply Rhandle_run_op | intros _; exact IH].
Qed.

(** X13. On a connection whose handle is [nil] exactly when it is closed
    or destroyed, that stays so through any run of operations and events,
    whatever their outcome; the handle is never replaced by another one;
    and every call of the engine's write and close primitives in between
    was given a live handle. *)
Theorem engine_write_and_close_get_live_handle os st :
  handle_consistent (conn st) ->
  let st' := final (run_ops os st) in
  handle_consistent (conn st')
  /\ (s (conn st') = s (conn st) \/ s (conn st') = None)
  /\ exists new,
      trace (world st') = new ++ trace (world st) /\ Forall handle_ok new.
Proof. intros Hc. exact (Rhandle_run_ops os st Hc). Qed.

(** X13 (witness): three bytes are written, the connection is closed, then
    written to and closed again, then destroyed. *)
Lemma engine_write_and_close_get_live_handle_witness :
  let os := [op_Write [x01; x02; x03]; op_event call_Close;
             op_Write [x04]; op_event call_Close; op_event on_destroyed] in
  let st := mkSt fresh (mkWorld (fun _ => 1) O (fun _ b => len b) O [] []) in
  let st' := final (run_ops os st) in
  handle_consistent (conn st)
  /\ s (conn st') = None
  /\ exists new,
      trace (world st') = new ++ trace (world st) /\ Forall handle_ok new.
Proof.
  intros os st st'.
  assert (Hc : handle_consistent (conn st)) by (split; discriminate).
  split; [exact Hc|]. split; [reflexivity|].
  destruct (engine_write_and_close_get_live_handle os st Hc) as (_ & _ & H).
  exact H.
Defined.

(** ** The byte counters *)

Lemma wrap64_in_int64 z : in_int64 (wrap64 z).
Proof.
  unfold in_int64, wrap64.
  pose proof (Z.mod_pos_bound (z + 2 ^ 63) (2 ^ 64)). lia.
Qed.

Lemma wrap64_id z : in_int64 z -> wrap64 z = z.
Proof.
  unfold in_int64, wrap64. intros H.
  rewrite Z.mod_small by lia. lia.
Qed.

Lemma Rcount_refl st : Rcount st st.
Proof. split; reflexivity. Qed.

Lemma Rcount_trans st1 st2 st3 : Rcount st1 st2 -> Rcount st2 st3 -> Rcount st1 st3.
Proof. unfold Rcount. intros [] []. split; congruence. Qed.

Lemma Rcount_event e : preserves Rcount (run_event e).
Proof. intros [c w]. destruct e; straight; split; reflexivity. Qed.

Lemma Rcount_cond_Wait : preserves Rcount cond_Wait.
Proof.
  apply preserves_cond_Wait.
  - exact Rcount_refl.
  - exact Rcount_trans.
  - intros. split; reflexivity.
  - exact Rcount_event.
Qed.

Lemma Rcount_writeNoWait b : preserves Rcount (writeNoWait b).
Proof. intros [c w]. straight; split; reflexivity. Qed.

Lemma Rcount_Write_loop fuel b n : preserves Rcount (Write_loop fuel b n).
Proof.
  apply preserves_Write_loop.
  - exact Rcount_refl.
  - exact Rcount_trans.
  - intros. split; reflexivity.
  - exact Rcount_event.
  - exact Rcount_writeNoWait.
Qed.

Lemma Read_loop_count fuel :
  forall b st b' n err st',
    in_int64 (numBytesRead (conn st)) ->
    Read_loop fuel b st = Ret (b', n, err) st' ->
    numBytesRead (conn st') = wrap64 (numBytesRead (conn st) + n)
    /\ numBytesWritten (conn st') = numBytesWritten (conn st).
Proof.
  induction fuel as [|fuel IH]; intros b st b' n err st' Hin; [discriminate|].
  pose proof (Read_loop_step fuel b st) as E. cbv zeta in E. rewrite E.
  clear E.
  destruct (negb _ || _ || _) eqn:C.
  - intros H. inversion H; subst. split; reflexivity.
  - apply (Read_loop_waits b st) in C as (Hb & Hrb & He & Hk).
    rewrite Hk. cbn [firstn skipn app Z.of_nat]. unfold bind.
    set (st1 := count_read 0 (after_readNoWait b st)).
    assert (H1 : numBytesRead (conn st1) = numBytesRead (conn st)).
    { cbn. rewrite Z.add_0_r. apply wrap64_id, Hin. }
    assert (H2 : numBytesWritten (conn st1) = numBytesWritten (conn st))
      by reflexivity.
    pose proof (Rcount_cond_Wait st1) as HW.
    destruct (cond_Wait st1) as [[] st2|v st2|st2|st2]; try discriminate.
    destruct HW as [W1 W2]. cbn [final] in W1, W2.
    intros H. apply IH in H.
    + rewrite W1, W2, H1, H2 in H. exact H.
    + rewrite W1, H1. exact Hin.
Qed.

(** X14. When [Read] returns [n], the read counter has advanced by [n]
    (as an [int64]) and the write counter is untouched; when [Write]
    returns [n], the write counter has advanced by [n] and the read counter
    is untouched. A [Write] that panics has counted nothing, whatever the
    engine accepted before, and no event touches either counter. *)
Theorem byte_counters :
  (forall b st b' n err st',
      in_int64 (numBytesRead (conn st)) ->
      Read b st = Ret (b', n, err) st' ->
      numBytesRead (conn st') = wrap64 (numBytesRead (conn st) + n)
      /\ numBytesWritten (conn st') = numBytesWritten (conn st))
  /\ (forall b st n err st',
        Write b st = Ret (n, err) st' ->
        numBytesWritten (conn st') = wrap64 (numBytesWritten (conn st) + n)
        /\ numBytesRead (conn st') = numBytesRead (conn st))
  /\ (forall b st v st', Write b st = Panic v st' -> Rcount st st')
  /\ (forall e st, Rcount st (final (run_event e st))).
Proof.
  split; [|split; [|split]].
  - intros b st b' n err st' Hin H. exact (Read_loop_count _ _ _ _ _ _ _ Hin H).
  - intros b st n err st'. unfold Write, bind at 1.
    pose proof (Rcount_Write_loop (S (List.length b + waits st)) b 0 st) as HC.
    destruct (Write_loop _ b 0 st) as [[n1 err1] st1|v st1|st1|st1];
      try discriminate.
    destruct HC as [C1 C2]. cbn [final] in C1, C2.
    intros H. inversion H; subst. cbn. rewrite C1, C2. split; reflexivity.
  - intros b st v st'. unfold Write, bind at 1.
    pose proof (Rcount_Write_loop (S (List.length b + waits st)) b 0 st) as HC.
    destruct (Write_loop _ b 0 st) as [[n1 err1] st1|v1 st1|st1|st1];
      try discriminate.
    intros H. inversion H; subst. exact HC.
  - exact Rcount_event.
Qed.

(** X14 (witness): the engine takes two of three bytes and then answers
    -1, and the two bytes are not counted; a read of one buffered byte is
    counted. *)
Lemma byte_counters_witness :
  let st := mkSt fresh
              (mkWorld (fun _ => 1) O
                 (fun k _ => match k with O => 2 | _ => -1 end) O [] []) in
  let st' := final (Write [x01; x02; x03] st) in
  let sr := mkSt (set_readBuf [x41] fresh) still in
  let sr' := final (Read [x00] sr) in
  (Write [x01; x02; x03] st = Panic (panic_int (-1)) st'
   /\ sum_accepted (trace (world st')) = 1
   /\ numBytesWritten (conn st') = numBytesWritten (conn st))
  /\ (in_int64 (numBytesRead (conn sr))
      /\ Read [x00] sr = Ret ([x41], 1, None) sr'
      /\ numBytesRead (conn sr') = wrap64 (numBytesRead (conn sr) + 1)).
Proof.
  intros st st' sr sr'.
  destruct byte_counters as (HR & _ & HP & _).
  split.
  - assert (E : Write [x01; x02; x03] st = Panic (panic_int (-1)) st')
      by reflexivity.
    split; [exact E|]. split; [reflexivity|].
    exact (proj2 (HP _ _ _ _ E)).
  - assert (Hin : in_int64 (numBytesRead (conn sr)))
      by (unfold in_int64; cbn; lia).
    assert (E : Read [x00] sr = Ret ([x41], 1, None) sr') by reflexivity.
    split; [exact Hin|]. split; [exact E|].
    exact (proj1 (HR _ _ _ _ _ _ Hin E)).
Defined.

(** ** Waiting for the connection *)

Lemma waitForConnect_loop_outcome fuel :
  forall st,
    match waitForConnect_loop fuel st with
    | Ret r st' =>
        r = libError (conn st')
        /\ (r = None -> gotConnect (conn st') = true)
    | Blocked st' =>
        libError (conn st') = None /\ gotConnect (conn st') = false
        /\ pending (world st') = []
    | _ => True
    end.
Proof.
  induction fuel as [|fuel IH]; intros st; [exact I|].
  cbn [waitForConnect_loop]. unfold bind at 1, get at 1.
  destruct (libError (conn st)) as [e|] eqn:El.
  - cbn. split; [now rewrite El | discriminate].
  - destruct (gotConnect (conn st)) eqn:Eg.
    + cbn. split; [now rewrite El | auto].
    + unfold bind.
      destruct (cond_Wait st) as [[] st2|v st2|st2|st2] eqn:EW;
        try exact I.
      * apply IH.
      * apply cond_Wait_Blocked in EW as (Hp & Wc & _).
        rewrite Wc. auto.
Qed.

(** X15. [waitForConnect] returns the latched error whenever there is one
    (also when the connection is connected as well), returns [nil] only on
    a connected connection, and is left waiting only when there is no
    error, no connection and no event left to bring one; it always ends
    in one of these or in the panic of an event. *)
Theorem waitForConnect_outcome st :
  match waitForConnect st with
  | Ret r st' =>
      r = libError (conn st') /\ (r = None -> gotConnect (conn st') = true)
  | Blocked st' =>
      libError (conn st') = None /\ gotConnect (conn st') = false
      /\ pending (world st') = []
  | Panic _ _ => True
  | OutOfFuel _ => False
  end.
Proof.
  pose proof (waitForConnect_loop_outcome (S (waits st)) st) as H.
  pose proof (waitForConnect_fueled st) as HF.
  unfold waitForConnect in *.
  destruct (waitForConnect_loop (S (waits st)) st); auto.
Qed.

(** X16. [waitForConnect] returns at once, taking no event off the world,
    when an error is latched or the connection is connected; otherwise it
    waits, and the broadcast of the connect upcall makes it return [nil]
    while that of the error upcall makes it return that error. *)
Theorem waitForConnect_woken st :
  (forall e, libError (conn st) = Some e ->
             waitForConnect st = Ret (Some e) st)
  /\ (libError (conn st) = None -> gotConnect (conn st) = true ->
      waitForConnect st = Ret None st)
  /\ (libError (conn st) = None -> gotConnect (conn st) = false ->
      forall rest,
        (pending (world st) = [on_connected] :: rest ->
         exists st', waitForConnect st = Ret None st'
                     /\ pending (world st') = rest)
        /\ (forall codeName,
              pending (world st) = [on_error codeName] :: rest ->
              exists st',
                waitForConnect st = Ret (Some (errors_New codeName)) st'
                /\ pending (world st') = rest)).
Proof.
  unfold waitForConnect. split; [|split].
  - intros e H. cbn [waitForConnect_loop]. unfold bind, get. now rewrite H.
  - intros H1 H2. cbn [waitForConnect_loop]. unfold bind, get.
    now rewrite H1, H2.
  - intros H1 H2 rest. split.
    + intros Hp. unfold waits. rewrite Hp. cbn [List.length].
      cbn [waitForConnect_loop]. unfold bind at 1, get at 1.
      rewrite H1, H2. unfold bind at 1.
      eassert (E : run_events [on_connected] (pop_pending rest st)
                   = Ret tt _) by run_batch.
      rewrite (cond_Wait_woken st _ rest _ Hp E) by was_broadcast.
      unfold_straight. cbn. rewrite H1. eexists. split; reflexivity.
    + intros codeName Hp. unfold waits. rewrite Hp. cbn [List.length].
      cbn [waitForConnect_loop]. unfold bind at 1, get at 1.
      rewrite H1, H2. unfold bind at 1.
      eassert (E : run_events [on_error codeName] (pop_pending rest st)
                   = Ret tt _) by run_batch.
      rewrite (cond_Wait_woken st _ rest _ Hp E) by was_broadcast.
      unfold_straight. cbn. eexists. split; reflexivity.
Qed.

(** X16 (witness): a fresh connection; the connect upcall arrives. *)
Lemma waitForConnect_woken_witness :
  let st := mkSt fresh
              (mkWorld (fun _ => 1) O (fun _ _ => 0) O [] [[on_connected]]) in
  exists st', waitForConnect st = Ret None st'
              /\ pending (world st') = [].
Proof.
  intros st.
  destruct (waitForConnect_woken st) as (_ & _ & H).
  destruct (H eq_refl eq_refl []) as [H1 _].
  exact (H1 eq_refl).
Defined.

(** ** Deadlines *)

(** X17. [SetDeadline(t)] returns [nil] and sets both deadlines to [t];
    it stops both timers for the zero time and otherwise reads the clock
    once and re-arms both timers with the same duration, then broadcasts
    once. It leaves the connection as [SetReadDeadline(t)] followed by
    [SetWriteDeadline(t)] does whenever their two readings of the clock
    agree (or [t] is the zero time). *)
Theorem SetDeadline_sets_both t st :
  let c := conn st in
  let w := world st in
  let d := time.Sub t (clock w (ticks w)) in
  let T := if time.IsZero t then time.Stopped else time.Armed d in
  exists st1 st2,
    SetDeadline t st = Ret None st1
    /\ conn st1
       = set_writeDeadlineTimer T
           (set_readDeadlineTimer T
              (set_writeDeadline t (set_readDeadline t c)))
    /\ ticks (world st1) = (if time.IsZero t then ticks w else S (ticks w))
    /\ trace (world st1)
       = (if time.IsZero t
          then broadcast :: timer_Stop write_timer :: timer_Stop read_timer
                 :: trace w
          else broadcast :: timer_Reset write_timer d
                 :: timer_Reset read_timer d :: trace w)
    /\ (SetReadDeadline t ;; SetWriteDeadline t) st = Ret None st2
    /\ (time.IsZero t = true \/ clock w (S (ticks w)) = clock w (ticks w) ->
        conn st2 = conn st1).
Proof.
  destruct st as [c w]. cbn [conn world].
  unfold SetDeadline, SetReadDeadline, SetWriteDeadline.
  unfold_straight. cbn.
  destruct (time.IsZero t) eqn:Hz; cbn.
  - do 2 eexists. repeat split.
  - do 2 eexists. split; [reflexivity|]. split; [reflexivity|].
    split; [reflexivity|]. split; [reflexivity|]. split; [reflexivity|].
    intros [H | H]; [discriminate|]. cbn. rewrite H. reflexivity.
Qed.

(** X17 (witness): the clock stands at 1 and the deadline is 50. *)
Lemma SetDeadline_sets_both_witness :
  exists st1,
    SetDeadline 50 start = Ret None st1
    /\ readDeadline (conn st1) = 50 /\ writeDeadline (conn st1) = 50
    /\ readDeadlineTimer (conn st1) = time.Armed 49
    /\ writeDeadlineTimer (conn st1) = time.Armed 49.
Proof.
  destruct (SetDeadline_sets_both 50 start) as (st1 & st2 & E & Hc & _).
  exists st1. split; [exact E|]. rewrite Hc. repeat split.
Defined.

(** X18. A write deadline set by another thread while a [Write] waits
    under back-pressure on a writable connection wakes that [Write] by its
    broadcast; if the deadline is reached at the reading of the clock the [Write] then makes,
    it returns [(0, deadline exceeded)] without calling the engine again. *)
Theorem Write_woken_by_deadline b st t rest :
  writable (conn st) -> b <> [] ->
  engine (world st) (nwrites (world st)) b = 0 ->
  pending (world st) = [call_SetWriteDeadline t] :: rest ->
  time.IsZero t = false ->
  time.Before (clock (world st) (S (ticks (world st)))) t = false ->
  exists st',
    Write b st = Ret (0, Some errDeadlineExceeded) st'
    /\ pending (world st') = rest
    /\ nwrites (world st') = S (nwrites (world st)).
Proof.
  intros Hw Hb Hr Hp Hz Hd.
  pose proof Hw as (H1 & H2 & H3 & H4).
  eassert (E : run_events [call_SetWriteDeadline t]
                 (pop_pending rest (after_utp_write b st))
               = Ret tt _).
  { unfold after_utp_write. rewrite (writable_after_writeErr st Hw).
    unfold_straight; cbn [run_events run_event]; unfold_straight; cbn.
    rewrite Hz. cbn. reflexivity. }
  rewrite (Write_backpressure_woken b st _ rest _ Hw Hb Hr Hp E)
    by (unfold after_utp_write; rewrite (writable_after_writeErr st Hw);
        was_broadcast).
  eexists. split.
  - apply Write_stops_at_once; [exact Hb|].
    unfold write_terminal. cbn. rewrite H1, H2, H3, Hz. cbn.
    rewrite Hd. reflexivity.
  - unfold after_writeErr, write_reads_clock. cbn.
    rewrite H1, H2, H3, Hz. cbn. split; reflexivity.
Qed.

(** X18 (witness): the engine accepts nothing, the clock stands at 1000
    and the write deadline is set to 5. *)
Lemma Write_woken_by_deadline_witness :
  let st := mkSt fresh
              (mkWorld (fun _ => 1000) O (fun _ _ => 0) O []
                 [[call_SetWriteDeadline 5]]) in
  exists st', Write [x01] st = Ret (0, Some errDeadlineExceeded) st'.
Proof.
  intros st.
  destruct (Write_woken_by_deadline [x01] st 5 [])
    as (st' & E & _);
    [repeat split | discriminate | reflexivity | reflexivity | reflexivity
    | reflexivity |].
  exists st'. exact E.
Defined.

(** ** The flow-control notification *)

(** X19. A [Read] that returns buffered bytes tells the engine that the
    inbound buffer was drained exactly when it took the last buffered byte:
    one call of [utp_read_drained] when the whole buffer fitted into the
    caller's, none after a partial read. *)
Theorem Read_notifies_engine_iff_drained b st :
  b <> [] ->
  readBuf (conn st) <> [] ->
  let rb := readBuf (conn st) in
  exists r st',
    Read b st = Ret r st'
    /\ trace (world st')
       = (if (List.length rb <=? List.length b)%nat
          then utp_read_drained (s (conn st)) :: trace (world st)
          else trace (world st))
    /\ (readBuf (conn st') = [] <->
        (List.length rb <= List.length b)%nat).
Proof.
  intros Hb Hrb rb. do 2 eexists. split.
  - rewrite (Read_at_once b st) by (right; left; exact Hrb). reflexivity.
  - cbn. fold rb.
    assert (Hl : (0 < List.length rb)%nat).
    { subst rb. destruct (readBuf (conn st)); [contradiction | cbn; lia]. }
    assert (Hlb : (0 < List.length b)%nat).
    { destruct b; [contradiction | cbn; lia]. }
    unfold len. rewrite length_skipn.
    destruct (List.length rb <=? List.length b)%nat eqn:C.
    + apply Nat.leb_le in C.
      replace (Nat.min (List.length b) (List.length rb))
        with (List.length rb) by lia.
      replace (Z.of_nat (List.length rb) =? 0) with false
        by (symmetry; apply Z.eqb_neq; lia).
      rewrite Nat.sub_diag. cbn. split; [reflexivity|].
      split; [intros _; exact C | intros _; apply skipn_all].
    + apply Nat.leb_gt in C.
      replace (Nat.min (List.length b) (List.length rb))
        with (List.length b) by lia.
      replace (Z.of_nat (List.length rb - List.length b) =? 0) with false
        by (symmetry; apply Z.eqb_neq; lia).
      rewrite andb_false_r. split; [reflexivity|].
      split; [|lia].
      intros H. apply (f_equal (@List.length byte)) in H.
      rewrite length_skipn in H. cbn in H. lia.
Qed.

(** X19 (witness): three bytes buffered; a two-byte read does not notify
    the engine, the one-byte read after it does. *)
Lemma Read_notifies_engine_iff_drained_witness :
  let st := mkSt (set_readBuf [x41; x42; x43] fresh) still in
  exists r1 st1 r2 st2,
    Read [x00; x00] st = Ret r1 st1
    /\ trace (world st1) = []
    /\ Read [x00; x00] st1 = Ret r2 st2
    /\ trace (world st2) = [utp_read_drained (Some 1%nat)].
Proof.
  intros st.
  destruct (Read_notifies_engine_iff_drained [x00; x00] st)
    as (r1 & st1 & E1 & T1 & _); [discriminate | discriminate |].
  exists r1, st1.
  assert (Hst1 : st1 = final (Read [x00; x00] st)) by (now rewrite E1).
  destruct (Read_notifies_engine_iff_drained [x00; x00] st1)
    as (r2 & st2 & E2 & T2 & _);
    [discriminate | rewrite Hst1; discriminate |].
  exists r2, st2. split; [exact E1|]. split; [exact T1|].
  split; [exact E2|]. rewrite T2, Hst1. reflexivity.
Defined.

(** ** Writing without waiting *)

Lemma Write_loop_progress fuel :
  forall b n st,
    writable (conn st) ->
    (forall k buf, buf <> [] ->
                   0 < engine (world st) k buf <= len buf) ->
    (List.length b < fuel)%nat ->
    exists st',
      Write_loop fuel b n st = Ret (n + len b, None) st'
      /\ conn st' = conn st
      /\ pending (world st') = pending (world st)
      /\ sum_accepted (trace (world st'))
         = sum_accepted (trace (world st)) + len b.
Proof.
  induction fuel as [|fuel IH]; intros b n st Hw He Hf; [lia|].
  pose proof (Write_loop_step fuel b n st) as E. cbv zeta in E. rewrite E.
  clear E.
  destruct (len b =? 0) eqn:Hl.
  - apply Z.eqb_eq in Hl. exists st. rewrite Hl, !Z.add_0_r. auto.
  - apply Z.eqb_neq in Hl.
    assert (Hb : b <> []) by (intros ->; apply Hl; reflexivity).
    rewrite (writable_write_terminal _ _ Hw).
    pose proof (He (nwrites (world st)) b Hb) as Hr.
    set (r := engine (world st) (nwrites (world st)) b) in *.
    replace (r <? 0) with false by (symmetry; apply Z.ltb_ge; lia).
    replace (len b <? r) with false by (symmetry; apply Z.ltb_ge; lia).
    replace (r =? 0) with false by (symmetry; apply Z.eqb_neq; lia).
    assert (Hst1 : after_utp_write b st
                   = mkSt (conn st)
                       (mkWorld (clock (world st)) (ticks (world st))
                          (engine (world st)) (S (nwrites (world st)))
                          (utp_write (s (conn st)) b r :: trace (world st))
                          (pending (world st)))).
    { unfold after_utp_write. rewrite (writable_after_writeErr st Hw).
      reflexivity. }
    rewrite Hst1.
    match goal with |- context [Write_loop fuel _ _ ?x] => set (st1 := x) end.
    destruct (IH (skipn (Z.to_nat r) b) (n + r) st1)
      as (st' & E' & Hc & Hp & Hs).
    + exact Hw.
    + exact He.
    + pose proof (skipn_shorter b r). lia.
    + exists st'. rewrite E'. cbn in Hc, Hp, Hs.
      rewrite len_skipn in * by lia.
      split; [f_equal; f_equal; lia|]. split; [exact Hc|].
      split; [exact Hp|]. rewrite Hs. lia.
Qed.

(** X20. [Write] never waits while the engine makes progress: on a
    writable connection, if the engine answers every offer with a count
    between 1 and the bytes offered, [Write] returns [(len(b), nil)] with
    no event taken off the world, and the engine has accepted [len(b)]
    bytes more. *)
Theorem Write_never_waits_on_progress b st :
  writable (conn st) ->
  (forall k buf, buf <> [] -> 0 < engine (world st) k buf <= len buf) ->
  exists st',
    Write b st = Ret (len b, None) st'
    /\ pending (world st') = pending (world st)
    /\ sum_accepted (trace (world st'))
       = sum_accepted (trace (world st)) + len b.
Proof.
  intros Hw He. unfold Write, bind at 1.
  destruct (Write_loop_progress (S (List.length b + waits st)) b 0 st Hw He)
    as (st1 & E & _ & Hp & Hs); [lia|].
  rewrite E. cbn [Z.add] in *. eexists. split; [reflexivity|].
  split; [exact Hp | exact Hs].
Qed.

(** X20 (witness): an engine that takes one byte at a time. *)
Lemma Write_never_waits_on_progress_witness :
  let st := mkSt fresh (mkWorld (fun _ => 1) O (fun _ _ => 1) O [] []) in
  exists st',
    Write [x01; x02; x03] st = Ret (3, None) st'
    /\ sum_accepted (trace (world st')) = 3.
Proof.
  intros st.
  destruct (Write_never_waits_on_progress [x01; x02; x03] st)
    as (st' & E & _ & Hs).
  - repeat split.
  - intros k buf Hb. cbn. split; [lia|].
    destruct buf; [contradiction | cbn; lia].
  - exists st'. split; [exact E | exact Hs].
Defined.

(** ** The inbound buffer and the events consumed *)

Lemma data_of_app es1 es2 : data_of (es1 ++ es2) = data_of es1 ++ data_of es2.
Proof. unfold data_of. now rewrite map_app, concat_app. Qed.

(** Only a second error upcall panics, and it does so before it touches
    anything. *)
Lemma run_event_Panic e st v st' :
  run_event e st = Panic v st' ->
  (exists codeName, e = on_error codeName) /\ st' = st.
Proof.
  destruct st as [c w]. destruct e; straight; intros H;
    try discriminate; inversion H; subst; eauto.
Qed.

Lemma run_events_arrived es :
  forall st,
    match run_events es st with
    | Ret _ st' =>
        readBuf (conn st') = readBuf (conn st) ++ data_of es
        /\ pending (world st') = pending (world st)
    | Panic _ st' =>
        (exists ran codeName tl,
            es = ran ++ on_error codeName :: tl
            /\ readBuf (conn st') = readBuf (conn st) ++ data_of ran)
        /\ pending (world st') = pending (world st)
    | _ => False
    end.
Proof.
  induction es as [|e es IH]; intros st; cbn [run_events].
  - cbn. split; [now rewrite app_nil_r | reflexivity].
  - unfold bind.
    pose proof (run_event_readBuf e st) as Hb.
    pose proof (Rpending_event e st) as Hp. unfold Rpending in Hp.
    pose proof (run_event_fueled e st) as Hf.
    destruct (run_event e st) as [[] st1|v st1|st1|st1] eqn:E;
      cbn [final] in *.
    + specialize (IH st1).
      destruct (run_events es st1) as [[] st2|v st2|st2|st2];
        try contradiction.
      * destruct IH as [I1 I2]. split; [|congruence].
        rewrite I1, Hb. change (e :: es) with ([e] ++ es).
        rewrite data_of_app, app_assoc. f_equal. f_equal.
        unfold data_of. cbn. now rewrite app_nil_r.
      * destruct IH as [(ran & code & tl & I1 & I2) I3].
        split; [|congruence].
        exists (e :: ran), code, tl. split; [now rewrite I1|].
        rewrite I2, Hb. change (e :: ran) with ([e] ++ ran).
        rewrite data_of_app, app_assoc. f_equal. f_equal.
        unfold data_of. cbn. now rewrite app_nil_r.
    + apply run_event_Panic in E as [(code & ->) ->].
      split; [|reflexivity].
      exists [], code, es. split; [reflexivity|]. now rewrite app_nil_r.
    + apply run_event_not_Blocked in E. contradiction.
    + contradiction.
Qed.

Lemma Rarrived_same st st' :
  pending (world st') = pending (world st) ->
  readBuf (conn st') = readBuf (conn st) ->
  Rarrived st st'.
Proof.
  intros Hp Hb. exists []. cbn. split; [now rewrite Hp|].
  rewrite Hb. unfold data_of. cbn. now rewrite app_nil_r.
Qed.

Lemma Rarrived_trans st1 st2 st3 :
  Rarrived st1 st2 -> Rarrived st2 st3 -> Rarrived st1 st3.
Proof.
  intros (c1 & P1 & B1) (c2 & P2 & B2). exists (c1 ++ c2). split.
  - now rewrite P1, P2, app_assoc.
  - now rewrite B2, B1, concat_app, data_of_app, app_assoc.
Qed.

Lemma Rarrived_is_panic st st' : Rarrived st st' -> Rarrived_panic st st'.
Proof.
  intros (c & P & B). exists (List.concat c), []. split; [|split].
  - now rewrite P, concat_app.
  - exact B.
  - left. reflexivity.
Qed.

Lemma Rarrived_then_panic st1 st2 st3 :
  Rarrived st1 st2 -> Rarrived_panic st2 st3 -> Rarrived_panic st1 st3.
Proof.
  intros (c1 & P1 & B1) (ran & sk & P2 & B2 & H).
  exists (List.concat c1 ++ ran), sk. split; [|split].
  - now rewrite P1, concat_app, P2, app_assoc.
  - now rewrite B2, B1, data_of_app, app_assoc.
  - exact H.
Qed.

(** What holds from a state holds from any state that state arrived
    from. *)
Lemma arrived_post_after {A : Type} st st1 (r : Res A) :
  Rarrived st st1 -> arrived_post st1 r -> arrived_post st r.
Proof.
  intros H. destruct r; cbn; intros Hr; try exact Hr;
    [ eapply Rarrived_trans | eapply Rarrived_then_panic
    | eapply Rarrived_trans ]; eassumption.
Qed.

Lemma arrived_post_same {A : Type} st st1 (r : Res A) :
  pending (world st1) = pending (world st) ->
  readBuf (conn st1) = readBuf (conn st) ->
  arrived_post st1 r -> arrived_post st r.
Proof.
  intros Hp Hb. apply arrived_post_after. now apply Rarrived_same.
Qed.

Lemma wait_for_broadcast_arrived batches :
  forall st,
    pending (world st) = batches ->
    arrived_post st (wait_for_broadcast batches st).
Proof.
  induction batches as [|batch rest IH]; intros st Hp;
    cbn [wait_for_broadcast].
  - cbn. apply Rarrived_same; reflexivity.
  - pose proof (run_events_arrived batch (pop_pending rest st)) as HE.
    destruct (run_events batch (pop_pending rest st))
      as [[] st1|v st1|st1|st1]; try contradiction.
    + destruct HE as [Hb Hq]. cbn in Hb, Hq.
      assert (HR : Rarrived st st1).
      { exists [batch]. cbn. rewrite Hq, Hp, app_nil_r. auto. }
      destruct (broadcast_since _ st1); [exact HR|].
      exact (arrived_post_after st st1 _ HR (IH st1 Hq)).
    + destruct HE as [(ran & code & tl & Hb & Hr) Hq]. cbn in Hr, Hq.
      exists ran, (on_error code :: tl). split; [|split].
      * rewrite Hp, Hq. cbn. rewrite Hb, <- app_assoc. reflexivity.
      * exact Hr.
      * right. eauto.
Qed.

Lemma cond_Wait_arrived st : arrived_post st (cond_Wait st).
Proof. apply wait_for_broadcast_arrived. reflexivity. Qed.

Lemma bind_run {A B : Type} (m : M A) (k : A -> M B) st :
  (x <- m ;; k x) st
  = match m st with
    | Ret a st' => k a st'
    | Panic v st' => Panic v st'
    | Blocked st' => Blocked st'
    | OutOfFuel st' => OutOfFuel st'
    end.
Proof. reflexivity. Qed.

Lemma Write_loop_arrived fuel :
  forall b n st,
    fueled (Write_loop fuel b n st) ->
    arrived_post st (Write_loop fuel b n st).
Proof.
  induction fuel as [|fuel IH]; intros b n st; [intros []|].
  cbn [Write_loop].
  destruct (len b =? 0); [intros _; now apply Rarrived_same|].
  rewrite bind_run.
  pose proof (Rpending_writeNoWait b st) as HP. unfold Rpending in HP.
  pose proof (writeNoWait_readBuf b st) as HB.
  destruct (writeNoWait b st) as [[n1 err] st1|v st1|st1|st1];
    cbn [final] in HP, HB;
    [ | intros _; apply Rarrived_is_panic; now apply Rarrived_same
      | intros _; now apply Rarrived_same
      | intros [] ].
  rewrite bind_run. unfold slice_from.
  destruct ((n1 <? 0) || (len b <? n1));
    [intros _; apply Rarrived_is_panic; now apply Rarrived_same|].
  cbn [ret].
  destruct err; [intros _; now apply Rarrived_same|].
  destruct (negb (n1 =? 0)).
  - intros Hf. apply (arrived_post_same st st1); auto.
  - rewrite bind_run.
    pose proof (cond_Wait_arrived st1) as HW.
    destruct (cond_Wait st1) as [[] st2|v st2|st2|st2];
      cbn [arrived_post] in HW; try contradiction; intros Hf;
      apply (arrived_post_same st st1); auto.
    apply (arrived_post_after st1 st2); auto.
Qed.

Lemma Write_arrived b st : arrived_post st (Write b st).
Proof.
  unfold Write, bind at 1.
  pose proof (Write_loop_fueled (S (List.length b + waits st)) b 0 st) as HF.
  pose proof (Write_loop_arrived (S (List.length b + waits st)) b 0 st) as H.
  destruct (Write_loop (S (List.length b + waits st)) b 0 st)
    as [[n err] st1|v st1|st1|st1]; cbn [arrived_post fueled] in *;
    apply H, HF; lia.
Qed.

Lemma waitForConnect_loop_arrived fuel :
  forall st,
    fueled (waitForConnect_loop fuel st) ->
    arrived_post st (waitForConnect_loop fuel st).
Proof.
  induction fuel as [|fuel IH]; intros st; [intros []|].
  cbn [waitForConnect_loop]. rewrite bind_run. unfold get at 1 2.
  destruct (libError (conn st)); [intros _; now apply Rarrived_same|].
  destruct (gotConnect (conn st)); [intros _; now apply Rarrived_same|].
  rewrite bind_run.
  pose proof (cond_Wait_arrived st) as HW.
  destruct (cond_Wait st) as [[] st2|v st2|st2|st2];
    cbn [arrived_post] in HW; try contradiction; intros Hf; auto.
  apply (arrived_post_after st st2); auto.
Qed.

Lemma waitForConnect_arrived st : arrived_post st (waitForConnect st).
Proof.
  apply waitForConnect_loop_arrived, waitForConnect_loop_fueled. lia.
Qed.

Lemma Read_post_after b st st1 r :
  Rarrived st st1 -> Read_post b st1 r -> Read_post b st r.
Proof.
  intros H. destruct r as [[[b' n] err] st2|v st2|st2|st2];
    cbn [Read_post]; intros Hr; try exact Hr;
    [ | eapply Rarrived_then_panic; eassumption
      | eapply Rarrived_trans; eassumption ].
  destruct H as (c1 & P1 & B1). destruct Hr as (c2 & P2 & Hr).
  exists (c1 ++ c2). split; [now rewrite P1, P2, app_assoc|].
  rewrite concat_app, data_of_app, app_assoc, <- B1. exact Hr.
Qed.

Lemma Read_loop_arrived fuel :
  forall b st,
    fueled (Read_loop fuel b st) -> Read_post b st (Read_loop fuel b st).
Proof.
  induction fuel as [|fuel IH]; intros b st; [intros []|].
  cbn [Read_loop]. rewrite bind_run.
  pose proof (Rpending_readNoWait b st) as HP. unfold Rpending in HP.
  destruct (readNoWait_spec b st) as (err & st1 & E & HB).
  cbv zeta in E. rewrite E in *. cbn [final] in HP.
  set (k := Nat.min (List.length b) (List.length (readBuf (conn st)))) in *.
  rewrite bind_run. unfold modify at 1 2.
  set (st2 := mkSt _ (world st1)).
  assert (HP2 : pending (world st2) = pending (world st)) by exact HP.
  assert (HB2 : readBuf (conn st2) = skipn k (readBuf (conn st)))
    by exact HB.
  clearbody st2.
  destruct (negb (Z.of_nat k =? 0) || (len b =? 0) || notnil err) eqn:C.
  - intros _. cbn [Read_post ret]. exists []. cbn [app List.concat].
    split; [now rewrite HP2|]. cbv zeta.
    change (data_of []) with (@nil byte). rewrite app_nil_r. fold k. auto.
  - apply orb_false_elim in C as [C _].
    apply orb_false_elim in C as [C _].
    apply negb_false_iff, Z.eqb_eq in C.
    assert (Hk : k = O) by lia. rewrite Hk in *.
    cbn [firstn skipn app] in *.
    assert (HR : Rarrived st st2) by now apply Rarrived_same.
    rewrite bind_run.
    pose proof (cond_Wait_arrived st2) as HW.
    destruct (cond_Wait st2) as [[] st3|v st3|st3|st3];
      cbn [arrived_post] in HW; try contradiction; intros Hf;
      cbn [Read_post].
    + apply (Read_post_after b st st2); [exact HR|].
      apply (Read_post_after b st2 st3); auto.
    + eapply Rarrived_then_panic; eassumption.
    + eapply Rarrived_trans; eassumption.
Qed.

Lemma Read_arrived b st : Read_post b st (Read b st).
Proof. apply Read_loop_arrived, Read_loop_fueled. lia. Qed.

(** C8. Whatever the operation or event and whatever its outcome, a flag
    among closed, eof and destroyed that was set stays set and a latched
    error stays the same error. An event changes the inbound buffer only
    by appending the bytes of a data arrival. [Write] and the connect wait
    leave it with exactly the bytes that the data arrivals among the
    events they waited through delivered added at its end, in order:
    nothing else is added and nothing is consumed. [Read] hands over the
    front of the buffer as those arrivals left it, as much as fits, and
    keeps the rest. *)
Theorem state_invariants_preserved :
  (forall o st, stable (conn st) (conn (final (run_op o st))))
  /\ (forall os st, stable (conn st) (conn (final (run_ops os st))))
  /\ (forall e st,
        readBuf (conn (final (run_event e st)))
        = readBuf (conn st) ++ event_data e)
  /\ (forall b st,
        readBuf (conn (final (writeNoWait b st))) = readBuf (conn st))
  /\ (forall b st, arrived_post st (Write b st))
  /\ (forall st, arrived_post st (waitForConnect st))
  /\ (forall b st, Read_post b st (Read b st)).
Proof.
  split; [exact Rstable_run_op|].
  split; [exact Rstable_run_ops|].
  split; [exact run_event_readBuf|].
  split; [exact writeNoWait_readBuf|].
  split; [exact Write_arrived|].
  split; [exact waitForConnect_arrived | exact Read_arrived].
Qed.
